(** * Conway's Game of Life on a Go map: the three programs of the repository

    The repository holds three versions of one program:
    - [src/gol.go]: the first version, with a [Tick] that counts in place
      (module [Single]);
    - the cobra version, same engine, pattern read from a flag (module [Cobra]);
    - the flag version, whose [Tick] is staged into [CountLiveNeighbours] and
      [ApplyRules] (module [Staged]).
    [Inflate] and [Deflate] are the same text in all three.

    A Go map is a reference to a mutable table, and [range] walks it in an
    order the language leaves open.  Both are kept: the programs run in a
    state and error monad over a heap of tables, and every [range] asks the
    state's scheduler for the order of that walk. *)

From Stdlib Require Import Ascii String.
From stdpp Require Import gmap strings list fin_maps pretty.
Open Scope Z_scope.

(** ** Go's [int]: integers with wrap-around

    [int] is taken at its 64-bit size.  Coordinates and counters are kept in
    [Z], and every addition the programs make is wrapped. *)

Definition int_min : Z := - 2 ^ 63.
Definition int_max : Z := 2 ^ 63 - 1.
Definition int_wrap (z : Z) : Z := (z + 2 ^ 63) `mod` 2 ^ 64 - 2 ^ 63.
Definition int_add (a b : Z) : Z := int_wrap (a + b).
Definition is_int (z : Z) : Prop := int_min ≤ z ≤ int_max.

(** ** Data model *)

Record Cell := mkCell { alive : bool; n : Z }.
Record Coord := mkCoord { x : Z; y : Z }.

Global Instance Cell_eq_dec : EqDecision Cell.
Proof. solve_decision. Defined.
Global Instance Coord_eq_dec : EqDecision Coord.
Proof. solve_decision. Defined.
Global Instance Coord_countable : Countable Coord :=
  inj_countable' (λ c, (x c, y c)) (λ p, mkCoord p.1 p.2)
                 (λ c, match c with mkCoord _ _ => eq_refl end).

Abbreviation World := (gmap Coord Cell).

(** The zero value of [Cell], what [world[c]] yields on a missing key. *)
Definition zeroCell : Cell := mkCell false 0.

(** A coordinate both of whose fields are values of Go's [int]. *)
Definition is_coord (c : Coord) : Prop := is_int (x c) ∧ is_int (y c).

(** ** Machine state *)

(** What [strconv.Atoi] returns as its error: the function and the rejected
    text.  (The kind, syntax or range, is printed with it and not needed
    below.) *)
Record NumError := mkNumError { Func : string; Num : string }.

(** One line written to standard output. *)
Inductive Line : Type :=
  | Text (s : string)            (* Println of strings, or a Printf ending in a newline *)
  | ErrText (e : NumError).      (* Println of an error value *)

(** A map value: the index of its table on the heap.  An index past the end
    of the heap stands for the nil map: reads find nothing, a write panics. *)
Definition ref := nat.

Record State := mkState {
  heap : list World;                    (* the tables made so far; a map value is an index *)
  sched : nat → World → list Coord;     (* the order the k-th range walks a table in *)
  loops : nat;                          (* number of range loops started *)
  stdout : list Line
}.

(** How a computation ends. *)
Inductive Res (A : Type) : Type :=
  | Ok (a : A)
  | Exit (code : Z)            (* os.Exit *)
  | Panic (msg : string).      (* runtime panic *)
Arguments Ok {A} a.
Arguments Exit {A} code.
Arguments Panic {A} msg.

(** Computations: state passing, with [os.Exit] and panics cutting the rest
    of the program short. *)
Definition M (A : Type) : Type := State → Res A * State.

Definition ret {A} (a : A) : M A := λ s, (Ok a, s).
Definition bind {A B} (m : M A) (f : A → M B) : M B :=
  λ s, match m s with
       | (Ok a, s') => f a s'
       | (Exit code, s') => (Exit code, s')
       | (Panic msg, s') => (Panic msg, s')
       end.

Declare Scope go_scope.
Delimit Scope go_scope with go.
Bind Scope go_scope with M.
Notation "x ← y ; z" := (bind y (λ x, z))
  (at level 20, y at level 100, z at level 200, only parsing) : go_scope.
Notation "y ;; z" := (bind y (λ _, z))
  (at level 100, z at level 200, only parsing, right associativity) : go_scope.

Definition set_heap (h : list World) (s : State) : State :=
  mkState h (sched s) (loops s) (stdout s).

(** The table behind a map value. *)
Definition world_at (s : State) (m : ref) : World := default ∅ (heap s !! m).

(** [make(World)] *)
Definition make : M ref :=
  λ s, (Ok (length (heap s)), set_heap (heap s ++ [∅]) s).

(** [m[c]] as a value: the zero value when [c] is missing. *)
Definition index (m : ref) (c : Coord) : M Cell :=
  λ s, (Ok (default zeroCell (world_at s m !! c)), s).

(** [_, found := m[c]] *)
Definition found (m : ref) (c : Coord) : M bool :=
  λ s, (Ok (bool_decide (is_Some (world_at s m !! c))), s).

(** [m[c] = v] *)
Definition assign (m : ref) (c : Coord) (v : Cell) : M unit :=
  λ s, match heap s !! m with
       | Some w => (Ok tt, set_heap (<[m := <[c := v]> w]> (heap s)) s)
       | None => (Panic "assignment to entry in nil map", s)
       end.

(** [fmt.Println], and the [fmt.Printf] calls whose format ends in a newline. *)
Definition println (l : Line) : M unit :=
  λ s, (Ok tt, mkState (heap s) (sched s) (loops s) (stdout s ++ [l])).

(** [os.Exit(code)], and a run-time panic. *)
Definition exit {A} (code : Z) : M A := λ s, (Exit code, s).
Definition panic {A} (msg : string) : M A := λ s, (Panic msg, s).

(** A loop over a list whose body only acts on the state. *)
Fixpoint forM {A} (l : list A) (body : A → M unit) : M unit :=
  match l with
  | [] => ret tt
  | a :: l' => (body a ;; forM l' body)%go
  end.

(** A loop over a list that also carries a local variable. *)
Fixpoint foldM {A B} (l : list A) (body : A → B → M B) (b : B) : M B :=
  match l with
  | [] => ret b
  | a :: l' => (b' ← body a b; foldM l' body b')%go
  end.

(** [for i := lo; i < hi; i++], the values [i] takes. *)
Definition upto (lo hi : Z) : list Z := seqZ lo (hi - lo).

(** [for i := 0; i < k; i++ { a = body(a) }], [i] unused in the body. *)
Fixpoint repeatM {A} (k : nat) (body : A → M A) (a : A) : M A :=
  match k with
  | O => ret a
  | S k' => (a' ← body a; repeatM k' body a')%go
  end.

(** [for coord, cell := range m]: the scheduler fixes the order of the keys
    the table has when the loop starts; each key is visited with the value
    it has when its turn comes, and a key deleted meanwhile is skipped. *)
Definition range (m : ref) (body : Coord → Cell → M unit) : M unit :=
  λ s, forM (sched s (loops s) (world_at s m))
            (λ k s', match world_at s' m !! k with
                     | Some cell => body k cell s'
                     | None => (Ok tt, s')
                     end)
            (mkState (heap s) (sched s) (S (loops s)) (stdout s)).

(** ** The engine *)

(** Inflate inflates the world with dead cells surrounding the live cells. *)
Definition Inflate (world : ref) : M ref :=
  (newWorld ← make;
   range world (λ coord cell,
     assign newWorld coord cell;;
     forM (upto (-1) 2) (λ i,
       forM (upto (-1) 2) (λ j,
         let c := mkCoord (int_add (x coord) i) (int_add (y coord) j) in
         fnd ← found newWorld c;
         if negb fnd then assign newWorld c (mkCell false 0) else ret tt)));;
   ret newWorld)%go.

(** Deflate deflates the world: only the live cells remain. *)
Definition Deflate (world : ref) : M ref :=
  (newWorld ← make;
   range world (λ coord cell,
     if alive cell then assign newWorld coord cell else ret tt);;
   ret newWorld)%go.

(** The counting loops shared by both versions of [Tick]: the value of the
    local [n] after the two nested loops over [i] and [j]. *)
Definition countAround (world : ref) (coord : Coord) : M Z :=
  foldM (upto (-1) 2) (λ i n0,
    foldM (upto (-1) 2) (λ j n1,
      let c := mkCoord (int_add (x coord) i) (int_add (y coord) j) in
      if negb (i =? 0) || negb (j =? 0) then
        (wc ← index world c;
         if alive wc then ret (int_add n1 1) else ret n1)%go
      else ret n1) n0) 0.

(** The rule loop shared by both versions. *)
Definition applyLoop (world newWorld : ref) : M unit :=
  range world (λ coord cell,
    if alive cell then
      if (1 <? n cell) && (n cell <? 4) then assign newWorld coord (mkCell true 0)
      else ret tt
    else
      if n cell =? 3 then assign newWorld coord (mkCell true 0)
      else ret tt).

(** *** [src/gol.go] *)
Module Single.

(** Tick computes the next generation of live cells in the world; the
    counts are written back into the receiver. *)
Definition Tick (world : ref) : M ref :=
  (range world (λ coord cell,
     cnt ← countAround world coord;
     assign world coord (mkCell (alive cell) cnt));;
   newWorld ← make;
   applyLoop world newWorld;;
   ret newWorld)%go.

(** [world.Inflate().Tick().Deflate()], the expression [main] iterates. *)
Definition generation (world : ref) : M ref :=
  (t0 ← Inflate world; t1 ← Tick t0; Deflate t1)%go.

Definition gnuplotHeader : M unit :=
  (println (Text "unset key; set xrange[-50:50]");;
   println (Text "set yrange[-50:50]"))%go.

Definition gnuplotWorld (world : ref) : M unit :=
  (println (Text "plot '-' with points pointtype 6");;
   range world (λ coord _,
     println (Text (pretty (x coord) +:+ ", " +:+ pretty (y coord))));;
   println (Text "e"))%go.

Definition main : M unit :=
  (world ← make;
   assign world (mkCoord 1 0) (mkCell true 0);;
   assign world (mkCoord 0 1) (mkCell true 0);;
   assign world (mkCoord 1 1) (mkCell true 0);;
   assign world (mkCoord 1 2) (mkCell true 0);;
   assign world (mkCoord 2 2) (mkCell true 0);;
   gnuplotHeader;;
   gnuplotWorld world;;
   _ ← repeatM (Z.to_nat 1000) (λ world,
         world' ← generation world;
         gnuplotWorld world';;
         ret world') world;
   ret tt)%go.

End Single.

(** ** Text input: the two library functions the parsers call

    [strings.Split] and [strconv.Atoi] belong to Go's standard library; they
    are written here as its documentation describes them. *)

(** [strings.Split(s, sep)] for a one-byte separator: the pieces between the
    separators, one more than there are separators. *)
Fixpoint Split (s : string) (sep : ascii) : list string :=
  match s with
  | EmptyString => [EmptyString]
  | String a s' =>
      if Ascii.eqb a sep then EmptyString :: Split s' sep
      else match Split s' sep with
           | f :: fs => String a f :: fs
           | [] => [String a EmptyString]
           end
  end.

(** The value of a decimal digit, and of a string of them read from the
    left with [acc] read so far. *)
Definition digit_val (a : ascii) : option Z :=
  let k := Z.of_N (N_of_ascii a) - 48 in
  if (0 <=? k) && (k <=? 9) then Some k else None.

Fixpoint digits_val (s : string) (acc : Z) : option Z :=
  match s with
  | EmptyString => Some acc
  | String a s' =>
      match digit_val a with
      | Some d => digits_val s' (10 * acc + d)
      | None => None
      end
  end.

(** [strconv.Atoi]: an optional sign, then one or more decimal digits, the
    value within [int]; anything else is an error naming the text. *)
Definition Atoi (s : string) : Z + NumError :=
  let err := inr (mkNumError "Atoi" s) in
  let '(neg, body) := match s with
                      | String "-"%char r => (true, r)
                      | String "+"%char r => (false, r)
                      | _ => (false, s)
                      end in
  match body with
  | EmptyString => err
  | _ =>
      match digits_val body 0 with
      | Some v =>
          let v' := if neg then - v else v in
          if (int_min <=? v') && (v' <=? int_max) then inl v' else err
      | None => err
      end
  end.

(** [a[i]] on a slice: a run-time panic when [i] is out of range. *)
Definition elem {A} (a : list A) (i : nat) : M A :=
  match a !! i with
  | Some v => ret v
  | None => panic "index out of range"
  end.

(** [v, err := strconv.Atoi(t); if err != nil { fmt.Println(err); os.Exit(1) }] *)
Definition atoi_or_exit (t : string) : M Z :=
  match Atoi t with
  | inl v => ret v
  | inr err => (println (ErrText err);; exit 1)%go
  end.

(** ** Output shared by the cobra and the flag versions *)

Definition gnuplotHeader (d : Z) : M unit :=
  (println (Text ("unset key; set xrange[-" +:+ pretty (d `quot` 2) +:+ ":"
                  +:+ pretty (d `quot` 2) +:+ "]"));;
   println (Text ("set yrange[-" +:+ pretty (d `quot` 2) +:+ ":"
                  +:+ pretty (d `quot` 2) +:+ "]"));;
   println (Text "set style line 1 lc rgb '#0060ad' pt 7"))%go.

Definition gnuplotWorld (world : ref) : M unit :=
  (println (Text "plot '-' with points ls 1");;
   range world (λ coord _,
     println (Text (pretty (x coord) +:+ ", " +:+ pretty (y coord))));;
   println (Text "e"))%go.

(** *** The cobra version *)
Module Cobra.

(** Same text as in [src/gol.go]. *)
Definition Tick : ref → M ref := Single.Tick.

(** [world.Inflate().Tick().Deflate()], the expression [gol] iterates. *)
Definition generation (world : ref) : M ref :=
  (t0 ← Inflate world; t1 ← Tick t0; Deflate t1)%go.

(** The loop of [gol] that reads the pattern into [world]. *)
Definition readPattern (pattern : string) (world : ref) : M unit :=
  forM (Split pattern ";") (λ xy,
    let c := Split xy "," in
    (if (length c <? 2)%nat then
       (println (Text ("pattern error: " +:+ pattern +:+ " : " +:+ xy));;
        exit 1)
     else ret tt);;
    c0 ← elem c 0;
    x ← atoi_or_exit c0;
    c1 ← elem c 1;
    y ← atoi_or_exit c1;
    assign world (mkCoord x y) (mkCell true 0))%go.

Definition gol (d : Z) (pattern : string) (ticks : Z) : M unit :=
  (world ← make;
   readPattern pattern world;;
   gnuplotHeader d;;
   gnuplotWorld world;;
   _ ← repeatM (Z.to_nat ticks) (λ world,
         world' ← generation world;
         gnuplotWorld world';;
         ret world') world;
   ret tt)%go.

End Cobra.

(** *** The flag version *)
Module Staged.

(** CountLiveNeighbours counts for each cell in the world its neighbouring
    alive cells and updates its counter. *)
Definition CountLiveNeighbours (world : ref) : M ref :=
  (newWorld ← make;
   range world (λ coord cell,
     cnt ← countAround world coord;
     assign newWorld coord (mkCell (alive cell) cnt));;
   ret newWorld)%go.

(** ApplyRules applies the rules to each cell of the world. *)
Definition ApplyRules (world : ref) : M ref :=
  (newWorld ← make;
   applyLoop world newWorld;;
   ret newWorld)%go.

(** Tick computes the next generation of live cells in the world. *)
Definition Tick (world : ref) : M ref :=
  (w1 ← Inflate world;
   w2 ← CountLiveNeighbours w1;
   w3 ← ApplyRules w2;
   Deflate w3)%go.

(** [handleCommandLine] on the path taken without [-random]; the values of
    the three flags are the arguments. *)
Definition handleCommandLine (ticks size : Z) (coordinatesOpt : string)
  : M (Z * Z * list Coord) :=
  (let coordinates := Split coordinatesOpt ";" in
   pattern ← foldM (seq 0 (length coordinates)) (λ idx pattern,
       entry ← elem coordinates idx;
       let xy := Split entry "," in
       xy0 ← elem xy 0;
       x ← atoi_or_exit xy0;
       xy1 ← elem xy 1;
       y ← atoi_or_exit xy1;
       ret (<[idx := mkCoord x y]> pattern))
     (replicate (length coordinates) (mkCoord 0 0));
   ret (ticks, size, pattern))%go.

Definition main (ticksFlag sizeFlag : Z) (coordinatesOpt : string) : M unit :=
  (flags ← handleCommandLine ticksFlag sizeFlag coordinatesOpt;
   let '(ticks, size, pattern) := flags in
   world ← make;
   forM pattern (λ coord, assign world coord (mkCell true 0));;
   gnuplotHeader size;;
   _ ← repeatM (Z.to_nat ticks) (λ world,
         world' ← Tick world;
         gnuplotWorld world';;
         ret world') world;
   ret tt)%go.

End Staged.

(** ** What the stages compute, as functions on tables

    Closed forms of the engine's stages.  They are not a second program: the
    run lemmas below ([Inflate_run], [CountLiveNeighbours_run],
    [ApplyRules_run], [Deflate_run], [Staged_Tick_run], [Single_Tick_run])
    prove that the code above computes them, whatever the order of its
    walks. *)

Definition dead : Cell := mkCell false 0.
Definition live : Cell := mkCell true 0.

(** The coordinate at offset [(i, j)] from [c], in [int] arithmetic. *)
Definition move (i j : Z) (c : Coord) : Coord :=
  mkCoord (int_add (x c) i) (int_add (y c) j).

(** The nine coordinates the loops over [i] and [j] visit around [c], in
    the order they visit them. *)
Definition block (c : Coord) : list Coord :=
  i ← upto (-1) 2; j ← upto (-1) 2; [mkCoord (int_add (x c) i) (int_add (y c) j)].

(** The eight of them other than the centre offset. *)
Definition neighbours (c : Coord) : list Coord :=
  i ← upto (-1) 2; j ← upto (-1) 2;
  if negb (i =? 0) || negb (j =? 0)
  then [mkCoord (int_add (x c) i) (int_add (y c) j)] else [].


(** [world[c].alive] *)
Definition is_alive (w : World) (c : Coord) : bool :=
  alive (default zeroCell (w !! c)).

(** Number of live cells among the eight neighbours. *)
Definition live_neighbours (w : World) (c : Coord) : Z :=
  Z.of_nat (length (filter (λ c', is_alive w c' = true) (neighbours c))).

(** Every coordinate within one step of a key. *)
Definition halo (D : gset Coord) : gset Coord :=
  set_bind (λ c, list_to_set (block c)) D.

(** [Inflate]: the input, and a dead cell wherever the halo has no entry. *)
Definition inflate (w : World) : World := w ∪ gset_to_gmap dead (halo (dom w)).

(** What one pass of the innermost body of [Inflate] does to the new table,
    and what one iteration of its walk does. *)
Definition add_dead (c : Coord) (acc : World) : World :=
  if bool_decide (is_Some (acc !! c)) then acc else <[c := dead]> acc.
Definition inflate_step (k : Coord) (cell : Cell) (acc : World) : World :=
  foldl (λ a c, add_dead c a) (<[k := cell]> acc) (block k).

(** The entry the counting loops write for [c]. *)
Definition recount (w : World) (c : Coord) (cell : Cell) : Cell :=
  mkCell (alive cell) (live_neighbours w c).

(** [CountLiveNeighbours], and the first loop of the in-place [Tick]. *)
Definition counted (w : World) : World :=
  map_imap (λ c cell, Some (mkCell (alive cell) (live_neighbours w c))) w.

(** The rule on one counted cell: the entry of the next table, if any. *)
Definition fate (cell : Cell) : option Cell :=
  if alive cell then
    if (1 <? n cell) && (n cell <? 4) then Some live else None
  else
    if n cell =? 3 then Some live else None.

(** [ApplyRules], and the second loop of the in-place [Tick]. *)
Definition ruled (w : World) : World := omap fate w.

(** [Deflate] *)
Definition deflate (w : World) : World := filter (λ kv, alive kv.2 = true) w.

(** One generation. *)
Definition tick (w : World) : World := deflate (ruled (counted (inflate w))).

(** B3/S23 read off the input table, as a test and as a proposition: [c]
    survives with two or three live neighbours, or is born with exactly
    three. *)
Definition b3s23 (w : World) (c : Coord) : bool :=
  if is_alive w c
  then (live_neighbours w c =? 2) || (live_neighbours w c =? 3)
  else live_neighbours w c =? 3.


(** Two tables with the same keys and the same [alive] flags. *)
Definition same_life (w w' : World) : Prop :=
  ∀ c, alive <$> w' !! c = alive <$> w !! c.

(** ** Schedulers, states and outcomes *)

(** A scheduler is fair when every walk visits each key of the table
    exactly once, as Go's [range] does. *)
Definition fair (s : State) : Prop :=
  ∀ k w, sched s k w ≡ₚ (map_to_list w).*1.

(** One fair scheduler, the order of [map_to_list], and the state a program
    starts in with the tables [h] on the heap. *)
Definition listing_order : nat → World → list Coord := λ _ w, (map_to_list w).*1.
Definition boot (h : list World) : State := mkState h listing_order 0 [].

(** [m] at state [s] ends well, with a value and final state satisfying [Q]. *)
Definition returns {A} (m : M A) (s : State) (Q : A → State → Prop) : Prop :=
  ∃ a s', m s = (Ok a, s') ∧ Q a s'.

(** The states a run passes through: a walk started; table [m] replaced by
    [v]; one walk started and a new table [v] appended; [k] walks started
    and the tables [new] appended; the lines [ls] printed. *)
Definition started (s : State) : State :=
  mkState (heap s) (sched s) (S (loops s)) (stdout s).
Definition put (m : ref) (v : World) (s : State) : State :=
  set_heap (<[m := v]> (heap s)) s.
Definition alloc (v : World) (s : State) : State :=
  mkState (heap s ++ [v]) (sched s) (S (loops s)) (stdout s).
Definition grow (new : list World) (k : nat) (s : State) : State :=
  mkState (heap s ++ new) (sched s) (k + loops s) (stdout s).
Definition emit (ls : list Line) (s : State) : State :=
  mkState (heap s) (sched s) (loops s) (stdout s ++ ls).

(** [s'] keeps every table of [s] as it was and has printed nothing more. *)
Definition untouched (s s' : State) : Prop :=
  (∀ m v, heap s !! m = Some v → heap s' !! m = Some v) ∧ stdout s' = stdout s.

(** The call ends well, returns a table that did not exist before, and
    leaves every table that did exist, and the output, as they were. *)
Definition framed (m : M ref) (s : State) : Prop :=
  returns m s (λ r s', heap s !! r = None ∧ is_Some (heap s' !! r) ∧ untouched s s').

(** ** Patterns *)

(** The table [main] builds from a list of coordinates. *)
Definition world_of (l : list Coord) : World :=
  foldl (λ w c, <[c := mkCell true 0]> w) ∅ l.

(** The three-cell row of the oscillator; the starting pattern that
    [src/gol.go] and the flag defaults name the r-Pentomino; the same four
    generations on. *)
Definition blinker : World := world_of [mkCoord 0 0; mkCoord 1 0; mkCoord 2 0].
Definition pentomino : World :=
  world_of [mkCoord 1 0; mkCoord 0 1; mkCoord 1 1; mkCoord 1 2; mkCoord 2 2].
Definition pentomino4 : World :=
  world_of [mkCoord (-1) 1; mkCoord (-1) 2; mkCoord 0 0; mkCoord 0 3;
            mkCoord 1 0; mkCoord 2 1; mkCoord 2 2; mkCoord 2 3].

(** The column the blinker turns into, and the two-by-two still life. *)
Definition column : World := world_of [mkCoord 1 (-1); mkCoord 1 0; mkCoord 1 1].
Definition square : World :=
  world_of [mkCoord 0 0; mkCoord 1 0; mkCoord 0 1; mkCoord 1 1].

(** A set of live coordinates as a table, and the step on such sets. *)
Definition live_world (S : gset Coord) : World := gset_to_gmap live S.
Definition next (S : gset Coord) : gset Coord := dom (tick (live_world S)).

(** A set translated by [(dx, dy)]. *)
Definition shift (dx dy : Z) (S : gset Coord) : gset Coord := set_map (move dx dy) S.

(** Every element is a coordinate of the grid. *)
Definition coords (S : gset Coord) : Prop := ∀ c, c ∈ S → is_coord c.

(** The three cells of the blinker as a set. *)
Definition row3 : gset Coord := list_to_set [mkCoord 0 0; mkCoord 1 0; mkCoord 2 0].

(** ** What the programs print *)

Definition point_line (c : Coord) : Line :=
  Text (pretty (x c) +:+ ", " +:+ pretty (y c)).

(** One plot block: the plot command [cmd], one line per coordinate, ["e"]. *)
Definition plot_block (cmd : string) (ks : list Coord) : list Line :=
  Text cmd :: (point_line <$> ks) ++ [Text "e"].

(** The header of the cobra and flag versions, and the two lines
    [src/gol.go] prints first. *)
Definition header_lines (d : Z) : list Line :=
  [ Text ("unset key; set xrange[-" +:+ pretty (d `quot` 2) +:+ ":"
          +:+ pretty (d `quot` 2) +:+ "]");
    Text ("set yrange[-" +:+ pretty (d `quot` 2) +:+ ":"
          +:+ pretty (d `quot` 2) +:+ "]");
    Text "set style line 1 lc rgb '#0060ad' pt 7" ].
Definition header_50 : list Line :=
  [ Text "unset key; set xrange[-50:50]"; Text "set yrange[-50:50]" ].

(** [ks] lists the keys of [w], each once, in some order. *)
Definition lists (ks : list Coord) (w : World) : Prop := ks ≡ₚ (map_to_list w).*1.

(** [blocks] are plot blocks for generations [from], [from + 1], ... of [w],
    one block each, in this order. *)
Definition plots (cmd : string) (w : World) (from : nat) (blocks : list (list Line)) : Prop :=
  Forall2 (λ b i, ∃ ks, lists ks (Nat.iter i tick w) ∧ b = plot_block cmd ks)
          blocks (seq from (length blocks)).

(** [out] is [head] followed by [count] plot blocks, for generations [from],
    [from + 1], ... of [w]. *)
Definition prints (out head : list Line) (cmd : string) (w : World) (from count : nat)
  : Prop :=
  ∃ blocks, out = head ++ concat blocks ∧ length blocks = count ∧ plots cmd w from blocks.

(** ** What the parsers make of a pattern *)

(** The cobra version on one entry: a coordinate, or the line it prints
    before it exits. *)
Definition read_entry (pattern xy : string) : Coord + Line :=
  match Split xy "," with
  | c0 :: c1 :: _ =>
      match Atoi c0 with
      | inr e => inr (ErrText e)
      | inl x0 =>
          match Atoi c1 with
          | inr e => inr (ErrText e)
          | inl y0 => inl (mkCoord x0 y0)
          end
      end
  | _ => inr (Text ("pattern error: " +:+ pattern +:+ " : " +:+ xy))
  end.

(** The entries read before the first rejected one, and the line printed
    for that one. *)
Fixpoint read_entries (pattern : string) (entries : list string)
  : list Coord * option Line :=
  match entries with
  | [] => ([], None)
  | xy :: rest =>
      match read_entry pattern xy with
      | inl c => let '(cs, r) := read_entries pattern rest in (c :: cs, r)
      | inr l => ([], Some l)
      end
  end.

(** The flag version on one entry: how the iteration ends and what it
    prints. *)
Definition flag_entry (entry : string) : Res Coord * list Line :=
  match Split entry "," with
  | [] => (Panic "index out of range", [])
  | xy0 :: rest =>
      match Atoi xy0 with
      | inr e => (Exit 1, [ErrText e])
      | inl x0 =>
          match rest with
          | [] => (Panic "index out of range", [])
          | xy1 :: _ =>
              match Atoi xy1 with
              | inr e => (Exit 1, [ErrText e])
              | inl y0 => (Ok (mkCoord x0 y0), [])
              end
          end
      end
  end.

(** The flag version on all entries, in order, up to the first that does
    not end well. *)
Fixpoint flag_entries (entries : list string) : Res (list Coord) * list Line :=
  match entries with
  | [] => (Ok [], [])
  | entry :: rest =>
      match flag_entry entry with
      | (Ok c, _) =>
          match flag_entries rest with
          | (Ok cs, ls) => (Ok (c :: cs), ls)
          | (Exit code, ls) => (Exit code, ls)
          | (Panic msg, ls) => (Panic msg, ls)
          end
      | (Exit code, ls) => (Exit code, ls)
      | (Panic msg, ls) => (Panic msg, ls)
      end
  end.

(** [t] is one of the first two comma-separated fields of [xy]. *)
Definition leading_field (xy t : string) : Prop :=
  Split xy "," !! 0%nat = Some t ∨ Split xy "," !! 1%nat = Some t.

(** An entry the parsers reject: fewer than two fields, or a first or second
    field that is no integer. *)
Definition bad_entry (xy : string) : Prop :=
  (length (Split xy ",") < 2)%nat
  ∨ ∃ t e, leading_field xy t ∧ Atoi t = inr e.

(** The line [l] reports entry [xy]: it is the pattern error naming the
    pattern and the entry, or the conversion error of one of its first two
    fields, which names that field. *)
Definition reports (pattern xy : string) (l : Line) : Prop :=
  l = Text ("pattern error: " +:+ pattern +:+ " : " +:+ xy)
  ∨ ∃ t, leading_field xy t ∧ Atoi t = inr (mkNumError "Atoi" t)
         ∧ l = ErrText (mkNumError "Atoi" t).

(** Another fair scheduler, the order of [map_to_list] reversed, and a
    start state under it. *)
Definition reversed_order : nat → World → list Coord :=
  λ _ w, reverse (map_to_list w).*1.
Definition boot_reversed (h : list World) : State := mkState h reversed_order 0 [].

(** ** The random starting pattern of the flag version

    Under [-random], [handleCommandLine] walks the square of side [size] and
    keeps a cell when [rand.Intn(100)] is below 20.  The generator is an
    oracle here: [draws k] is what its [k]-th call returns.  The loops carry
    the slice [pattern] and the number of calls made so far. *)

Definition int_sub (a b : Z) : Z := int_wrap (a - b).

Definition handleCommandLine_random (draws : nat → Z) (size : Z) : list Coord :=
  fst (foldl (λ st i,
         foldl (λ st j,
           let '(pattern, k) := st in
           (if draws k <? 20
            then pattern ++ [mkCoord (int_sub i (size `quot` 2)) (int_sub j (size `quot` 2))]
            else pattern,
            S k))
         st (upto 0 size))
       ([], 0%nat) (upto 0 size)).

(** The cells of the square, row by row as the loops visit them, and those
    of a list of cells that the draws from the [k]-th on keep. *)
Definition random_row (size i : Z) : list Coord :=
  (λ j, mkCoord (int_sub i (size `quot` 2)) (int_sub j (size `quot` 2))) <$> upto 0 size.
Definition random_grid (size : Z) : list Coord := upto 0 size ≫= random_row size.
Fixpoint kept (draws : nat → Z) (k : nat) (cells : list Coord) : list Coord :=
  match cells with
  | [] => []
  | c :: cells' => (if draws k <? 20 then [c] else []) ++ kept draws (S k) cells'
  end.

(** An oracle for the examples: every third draw is low. *)
Definition every_third (k : nat) : Z := if (k mod 3 =? 0)%nat then 7 else 60.

(** The four cells of the two-by-two still life as a set. *)
Definition block4 : gset Coord :=
  list_to_set [mkCoord 0 0; mkCoord 1 0; mkCoord 0 1; mkCoord 1 1].

Global Arguments int_add : simpl never.

(** * Proofs *)

(** ** Arithmetic of [int] *)

Lemma int_wrap_is_int z : is_int (int_wrap z).
Proof.
  unfold is_int, int_wrap, int_min, int_max.
  pose proof (Z.mod_pos_bound (z + 2 ^ 63) (2 ^ 64)). lia.
Qed.

Lemma int_wrap_id z : is_int z → int_wrap z = z.
Proof.
  unfold is_int, int_wrap, int_min, int_max. intros Hz.
  rewrite Z.mod_small; lia.
Qed.

Lemma int_wrap_add_l a b : int_wrap (int_wrap a + b) = int_wrap (a + b).
Proof.
  unfold int_wrap.
  replace ((a + 2 ^ 63) `mod` 2 ^ 64 - 2 ^ 63 + b + 2 ^ 63)
    with ((a + 2 ^ 63) `mod` 2 ^ 64 + b) by lia.
  rewrite Zplus_mod_idemp_l. do 2 f_equal. lia.
Qed.

Lemma int_add_is_int a b : is_int (int_add a b).
Proof. apply int_wrap_is_int. Qed.

Lemma int_add_add a b c : int_add (int_add a b) c = int_wrap (a + b + c).
Proof. unfold int_add. apply int_wrap_add_l. Qed.

Lemma int_add_cancel a b : is_int a → int_add (int_add a b) (- b) = a.
Proof.
  intros. rewrite int_add_add.
  replace (a + b + - b) with a by lia. by apply int_wrap_id.
Qed.

Lemma int_add_swap a b c : int_add (int_add a b) c = int_add (int_add a c) b.
Proof. rewrite !int_add_add. f_equal. lia. Qed.

Lemma int_add_small a b : 0 ≤ a → 0 ≤ b → a + b ≤ int_max → int_add a b = a + b.
Proof.
  intros. apply int_wrap_id. unfold is_int, int_min, int_max in *. lia.
Qed.

(** ** The monad *)

Lemma bind_ok {A B} (m : M A) (f : A → M B) s a s' :
  m s = (Ok a, s') → bind m f s = f a s'.
Proof. unfold bind. by intros ->. Qed.

Lemma bind_exit {A B} (m : M A) (f : A → M B) s code s' :
  m s = (Exit code, s') → bind m f s = (Exit code, s').
Proof. unfold bind. by intros ->. Qed.

(** One step of a run: the first computation of a sequence ends well, as
    the tactic [tac] shows (or as unification finds out). *)
Ltac bind_step tac := erewrite bind_ok; [|tac].

Lemma put_id m v s : heap s !! m = Some v → put m v s = s.
Proof.
  intros H. destruct s as [h sc lp out]. unfold put, set_heap. simpl in *.
  by rewrite list_insert_id.
Qed.

Lemma put_put m v v' s : put m v (put m v' s) = put m v s.
Proof. unfold put, set_heap. simpl. by rewrite list_insert_insert_eq. Qed.

Lemma heap_put_eq m v s : (m < length (heap s))%nat → heap (put m v s) !! m = Some v.
Proof. intros. simpl. by apply list_lookup_insert_eq. Qed.

Lemma heap_put_ne m m' v s : m ≠ m' → heap (put m v s) !! m' = heap s !! m'.
Proof. intros. simpl. by apply list_lookup_insert_ne. Qed.

Lemma heap_put_Some m v v' s : heap s !! m = Some v' → heap (put m v s) !! m = Some v.
Proof. intros H. apply heap_put_eq. by eapply lookup_lt_Some. Qed.

Lemma world_at_Some s m w : heap s !! m = Some w → world_at s m = w.
Proof. unfold world_at. by intros ->. Qed.

Lemma assign_run m c v w s :
  heap s !! m = Some w → assign m c v s = (Ok tt, put m (<[c := v]> w) s).
Proof. unfold assign. by intros ->. Qed.

(** A loop whose body rewrites one table as a function of its content. *)
Lemma forM_put {A} (nw : ref) (g : A → World → World) (body : A → M unit)
    (P : State → Prop) (l : list A) :
  (∀ s v, P s → P (put nw v s)) →
  (∀ a s acc, a ∈ l → P s → heap s !! nw = Some acc →
     body a s = (Ok tt, put nw (g a acc) s)) →
  ∀ s acc, P s → heap s !! nw = Some acc →
    forM l body s = (Ok tt, put nw (foldl (λ acc' a, g a acc') acc l) s).
Proof.
  intros HP. induction l as [|a l IH]; intros Hbody s acc Hs Hacc; simpl.
  - by rewrite put_id.
  - erewrite bind_ok; [|apply Hbody; [left|done..]].
    rewrite (IH (λ a' s' acc' Ha', Hbody a' s' acc' (list_elem_of_further _ _ _ Ha'))
               _ (g a acc)).
    + by rewrite put_put.
    + by apply HP.
    + by eapply heap_put_Some.
Qed.

(** A loop whose body only reads the state and updates its local. *)
Lemma foldM_pure {A B} (g : A → B → B) (body : A → B → M B) (l : list A) s :
  (∀ a b, body a b s = (Ok (g a b), s)) →
  ∀ b, foldM l body b s = (Ok (foldl (λ b' a, g a b') b l), s).
Proof.
  intros Hbody. induction l as [|a l IH]; intros b; simpl; [done|].
  erewrite bind_ok; [|apply Hbody]. apply IH.
Qed.

(** [range] over one table with a body that fills another. *)
Lemma range_put (world nw : ref) (step : Coord → Cell → World → World)
    (body : Coord → Cell → M unit) s w acc :
  world ≠ nw →
  heap s !! world = Some w →
  heap s !! nw = Some acc →
  (∀ k cell s' acc', heap s' !! world = Some w → heap s' !! nw = Some acc' →
     w !! k = Some cell →
     body k cell s' = (Ok tt, put nw (step k cell acc') s')) →
  range world body s =
    (Ok tt, put nw (foldl (λ acc' k, match w !! k with
                                     | Some cell => step k cell acc'
                                     | None => acc'
                                     end) acc (sched s (loops s) w))
                (started s)).
Proof.
  intros Hne Hw Hacc Hbody. unfold range. rewrite (world_at_Some _ _ _ Hw).
  apply (forM_put nw (λ k acc', match w !! k with
                                | Some cell => step k cell acc'
                                | None => acc'
                                end) _ (λ s', heap s' !! world = Some w)).
  - intros s' v Hs'. by rewrite heap_put_ne.
  - intros k s' acc' _ Hs' Hacc'. rewrite (world_at_Some _ _ _ Hs').
    destruct (w !! k) as [cell|] eqn:Hk.
    + by apply Hbody.
    + by rewrite put_id.
  - done.
  - done.
Qed.

(** [range] over a table with a body that rewrites the entry it visits. *)
Lemma range_self (world : ref) (step : Coord → Cell → World → World)
    (body : Coord → Cell → M unit) s w :
  heap s !! world = Some w →
  (∀ k cell s' w', heap s' !! world = Some w' → w' !! k = Some cell →
     body k cell s' = (Ok tt, put world (step k cell w') s')) →
  range world body s =
    (Ok tt, put world (foldl (λ w' k, match w' !! k with
                                      | Some cell => step k cell w'
                                      | None => w'
                                      end) w (sched s (loops s) w))
                (started s)).
Proof.
  intros Hw Hbody. unfold range. rewrite (world_at_Some _ _ _ Hw).
  apply (forM_put world (λ k w', match w' !! k with
                                 | Some cell => step k cell w'
                                 | None => w'
                                 end) _ (λ _, True)); try done.
  intros k s' w' _ _ Hs'. rewrite (world_at_Some _ _ _ Hs').
  destruct (w' !! k) as [cell|] eqn:Hk.
  - by eapply Hbody.
  - by rewrite put_id.
Qed.

(** ** Folds over the keys of a table *)

Lemma elem_of_keys (w : World) c : c ∈ (map_to_list w).*1 ↔ is_Some (w !! c).
Proof.
  rewrite list_elem_of_fmap. split.
  - intros [[k v] [-> Hkv]]. apply elem_of_map_to_list in Hkv. by exists v.
  - intros [v Hv]. exists (c, v). split; [done|]. by apply elem_of_map_to_list.
Qed.

Lemma elem_of_walk (w : World) ks c :
  ks ≡ₚ (map_to_list w).*1 → c ∈ ks ↔ is_Some (w !! c).
Proof. intros ->. apply elem_of_keys. Qed.

Lemma foldl_insert_lookup (f : Coord → option Cell) ks (acc : World) c :
  foldl (λ acc' k, match f k with Some v => <[k := v]> acc' | None => acc' end) acc ks !! c
  = if decide (c ∈ ks)
    then match f c with Some v => Some v | None => acc !! c end
    else acc !! c.
Proof.
  revert acc. induction ks as [|k ks IH]; intros acc; simpl.
  - done.
  - rewrite IH. destruct (decide (c = k)) as [->|Hne].
    + rewrite (decide_True (P := k ∈ k :: ks)) by left.
      destruct (f k) as [v|] eqn:Hf.
      * rewrite lookup_insert_eq. by destruct (decide (k ∈ ks)).
      * by destruct (decide (k ∈ ks)).
    + assert (acc_ne : (match f k with Some v => <[k := v]> acc | None => acc end) !! c
                       = acc !! c).
      { destruct (f k); [by rewrite lookup_insert_ne|done]. }
      rewrite acc_ne. destruct (decide (c ∈ ks)) as [Hin|Hnin].
      * by rewrite decide_True by (by right).
      * rewrite decide_False; [done|]. by intros [?|?]%elem_of_cons.
Qed.

Lemma foldl_same {A B} (f g : A → B → A) (l : list B) :
  (∀ a b, f a b = g a b) → ∀ a, foldl f a l = foldl g a l.
Proof.
  intros Hfg. induction l as [|b l IH]; intros a; simpl; [done|].
  by rewrite Hfg, IH.
Qed.

(** Filling an empty table key by key, each entry a function of the entry
    read, gives [map_imap] whatever the order of the walk. *)
Lemma fold_keys_imap (g : Coord → Cell → option Cell) (w : World) ks :
  ks ≡ₚ (map_to_list w).*1 →
  foldl (λ acc k, match w !! k with
                  | Some cell => match g k cell with
                                 | Some v => <[k := v]> acc
                                 | None => acc
                                 end
                  | None => acc
                  end) ∅ ks
  = map_imap g w.
Proof.
  intros Hks. apply map_eq. intros c. rewrite map_lookup_imap.
  pose (f := λ k, match w !! k with Some cell => g k cell | None => None end).
  rewrite (foldl_same _ (λ acc k, match f k with
                                  | Some v => <[k := v]> acc
                                  | None => acc
                                  end)).
  2:{ intros acc k. unfold f. by destruct (w !! k). }
  rewrite (foldl_insert_lookup f), lookup_empty. unfold f.
  destruct (decide (c ∈ ks)) as [Hin|Hnin].
  - destruct (w !! c) as [cell|]; simpl; [|done]. by destruct (g c cell).
  - destruct (w !! c) as [cell|] eqn:Hc; [|done].
    exfalso. apply Hnin. by apply (elem_of_walk w).
Qed.

(** Copying a table key by key rebuilds it. *)
Lemma fold_keys_copy (w : World) ks :
  ks ≡ₚ (map_to_list w).*1 →
  foldl (λ acc k, match w !! k with Some cell => <[k := cell]> acc | None => acc end) ∅ ks
  = w.
Proof.
  intros Hks. apply map_eq. intros c.
  rewrite (foldl_insert_lookup (λ k, w !! k)), lookup_empty.
  destruct (decide (c ∈ ks)) as [Hin|Hnin].
  - by destruct (w !! c).
  - destruct (w !! c) as [cell|] eqn:Hc; [|done].
    exfalso. apply Hnin. by apply (elem_of_walk w).
Qed.

(** ** One stage: make a table, fill it from a walk over the receiver *)

Lemma alloc_put (s : State) v :
  put (length (heap s)) v (started (set_heap (heap s ++ [∅]) s)) = alloc v s.
Proof.
  unfold put, started, set_heap, alloc. simpl. f_equal.
  rewrite insert_app_r_alt by lia. by rewrite Nat.sub_diag.
Qed.

Lemma heap_fresh (s : State) v : heap (set_heap (heap s ++ [v]) s) !! length (heap s) = Some v.
Proof. simpl. by rewrite lookup_app_r, Nat.sub_diag. Qed.

Lemma heap_kept (s : State) v m w :
  heap s !! m = Some w → heap (set_heap (heap s ++ [v]) s) !! m = Some w.
Proof. intros H. simpl. by apply lookup_app_l_Some. Qed.

Lemma ref_below (s : State) m w : heap s !! m = Some w → m ≠ length (heap s).
Proof. intros H%lookup_lt_Some. lia. Qed.

Lemma stage_imap (g : Coord → Cell → option Cell) (world : ref)
    (body : ref → Coord → Cell → M unit) s w :
  fair s →
  heap s !! world = Some w →
  (∀ nw k cell s' acc', nw ≠ world →
     heap s' !! world = Some w → heap s' !! nw = Some acc' → w !! k = Some cell →
     body nw k cell s'
     = (Ok tt, put nw (match g k cell with
                       | Some v => <[k := v]> acc'
                       | None => acc'
                       end) s')) →
  (newWorld ← make; range world (body newWorld);; ret newWorld)%go s
  = (Ok (length (heap s)), alloc (map_imap g w) s).
Proof.
  intros Hfair Hw Hbody.
  bind_step ltac:(reflexivity).
  assert (Hne := ref_below _ _ _ Hw).
  erewrite bind_ok.
  2:{ apply (range_put world (length (heap s))
               (λ k cell acc', match g k cell with
                               | Some v => <[k := v]> acc'
                               | None => acc'
                               end) _ _ w ∅); [done|by apply heap_kept|apply heap_fresh|].
      intros k cell s' acc' ? ? ?. by apply Hbody. }
  unfold ret. f_equal. simpl loops. simpl sched.
  rewrite fold_keys_imap by apply Hfair.
  apply alloc_put.
Qed.

(** ** The stages, one by one *)

Lemma deflate_imap (w : World) :
  map_imap (λ _ cell, if alive cell then Some cell else None) w = deflate w.
Proof.
  apply map_eq. intros c. unfold deflate.
  rewrite map_lookup_imap, map_lookup_filter.
  destruct (w !! c) as [[[] k]|]; simpl; try done.
Qed.

Lemma ruled_imap (w : World) : map_imap (λ _ cell, fate cell) w = ruled w.
Proof.
  apply map_eq. intros c. unfold ruled. by rewrite map_lookup_imap, lookup_omap.
Qed.

Lemma Deflate_run world s w :
  fair s → heap s !! world = Some w →
  Deflate world s = (Ok (length (heap s)), alloc (deflate w) s).
Proof.
  intros Hfair Hw. rewrite <- deflate_imap. unfold Deflate.
  apply (stage_imap (λ _ cell, if alive cell then Some cell else None) world
           (λ nw coord cell, if alive cell then assign nw coord cell else ret tt));
    [done..|].
  intros nw k cell s' acc' _ _ Hacc _. destruct (alive cell).
  - by apply assign_run.
  - unfold ret. by rewrite put_id.
Qed.

Lemma applyLoop_body nw k cell s' acc' :
  heap s' !! nw = Some acc' →
  (if alive cell then
     if (1 <? n cell) && (n cell <? 4) then assign nw k (mkCell true 0) else ret tt
   else
     if n cell =? 3 then assign nw k (mkCell true 0) else ret tt) s'
  = (Ok tt, put nw (match fate cell with
                    | Some v => <[k := v]> acc'
                    | None => acc'
                    end) s').
Proof.
  intros Hacc. unfold fate.
  destruct (alive cell); [destruct ((1 <? n cell) && (n cell <? 4))|destruct (n cell =? 3)];
    first [by apply assign_run | unfold ret; by rewrite put_id].
Qed.

Lemma ApplyRules_run world s w :
  fair s → heap s !! world = Some w →
  Staged.ApplyRules world s = (Ok (length (heap s)), alloc (ruled w) s).
Proof.
  intros Hfair Hw. rewrite <- ruled_imap. unfold Staged.ApplyRules, applyLoop.
  apply (stage_imap (λ _ cell, fate cell) world
           (λ nw coord cell,
              if alive cell then
                if (1 <? n cell) && (n cell <? 4) then assign nw coord (mkCell true 0)
                else ret tt
              else
                if n cell =? 3 then assign nw coord (mkCell true 0)
                else ret tt)); [done..|].
  intros nw k cell s' acc' _ _ Hacc _. by apply applyLoop_body.
Qed.

(** The counter never wraps: it is the number of live neighbours. *)
Lemma count_fold (w : World) (cs : list Coord) (n0 : Z) :
  0 ≤ n0 → n0 + Z.of_nat (length cs) ≤ int_max →
  foldl (λ k c, if is_alive w c then int_add k 1 else k) n0 cs
  = n0 + Z.of_nat (length (filter (λ c, is_alive w c = true) cs)).
Proof.
  revert n0. induction cs as [|c cs IH]; intros n0 Hn0 Hmax; simpl.
  - lia.
  - simpl in Hmax. rewrite filter_cons. destruct (is_alive w c) eqn:Hc.
    + rewrite decide_True by done. rewrite int_add_small by lia.
      rewrite IH by lia. simpl. lia.
    + rewrite decide_False by done. rewrite IH by lia. done.
Qed.

Lemma countAround_run world coord s w :
  heap s !! world = Some w →
  countAround world coord s = (Ok (live_neighbours w coord), s).
Proof.
  intros Hw. unfold countAround.
  rewrite (foldM_pure
    (λ i n0, foldl (λ n1 j,
       if negb (i =? 0) || negb (j =? 0)
       then if is_alive w (mkCoord (int_add (x coord) i) (int_add (y coord) j))
            then int_add n1 1 else n1
       else n1) n0 (upto (-1) 2))).
  2:{ intros i n0.
      apply (foldM_pure (λ j n1,
        if negb (i =? 0) || negb (j =? 0)
        then if is_alive w (mkCoord (int_add (x coord) i) (int_add (y coord) j))
             then int_add n1 1 else n1
        else n1)).
      intros j n1. destruct (negb (i =? 0) || negb (j =? 0)); [|done].
      unfold bind, index, is_alive. rewrite (world_at_Some _ _ _ Hw).
      by destruct (alive _). }
  do 2 f_equal.
  transitivity (foldl (λ k c, if is_alive w c then int_add k 1 else k) 0 (neighbours coord)).
  { reflexivity. }
  unfold live_neighbours. rewrite count_fold; [lia|lia|].
  unfold int_max. change (length (neighbours coord)) with 8%nat. lia.
Qed.

Lemma CountLiveNeighbours_run world s w :
  fair s → heap s !! world = Some w →
  Staged.CountLiveNeighbours world s = (Ok (length (heap s)), alloc (counted w) s).
Proof.
  intros Hfair Hw. unfold Staged.CountLiveNeighbours, counted.
  apply (stage_imap (λ c cell, Some (mkCell (alive cell) (live_neighbours w c))) world
           (λ nw coord cell,
              (cnt ← countAround world coord;
               assign nw coord (mkCell (alive cell) cnt))%go)); [done..|].
  intros nw k cell s' acc' _ Hw' Hacc _.
  bind_step ltac:(by apply countAround_run).
  by apply assign_run.
Qed.

(** *** Inflate *)

Lemma add_dead_run nw c s acc :
  heap s !! nw = Some acc →
  (fnd ← found nw c;
   if negb fnd then assign nw c (mkCell false 0) else ret tt)%go s
  = (Ok tt, put nw (add_dead c acc) s).
Proof.
  intros Hacc. unfold bind, found, add_dead. rewrite (world_at_Some _ _ _ Hacc).
  destruct (bool_decide (is_Some (acc !! c))); simpl.
  - unfold ret. by rewrite put_id.
  - by apply assign_run.
Qed.

Lemma foldl_block {A} (f : A → Coord → A) (k : Coord) (a : A) :
  foldl (λ a' i, foldl (λ a'' j, f a'' (mkCoord (int_add (x k) i) (int_add (y k) j)))
                       a' (upto (-1) 2)) a (upto (-1) 2)
  = foldl f a (block k).
Proof. reflexivity. Qed.

Lemma Inflate_body nw k cell s acc :
  heap s !! nw = Some acc →
  (assign nw k cell;;
   forM (upto (-1) 2) (λ i,
     forM (upto (-1) 2) (λ j,
       let c := mkCoord (int_add (x k) i) (int_add (y k) j) in
       fnd ← found nw c;
       if negb fnd then assign nw c (mkCell false 0) else ret tt)))%go s
  = (Ok tt, put nw (inflate_step k cell acc) s).
Proof.
  intros Hacc. erewrite bind_ok; [|by apply assign_run].
  rewrite (forM_put nw
    (λ i a, foldl (λ a' j, add_dead (mkCoord (int_add (x k) i) (int_add (y k) j)) a')
                  a (upto (-1) 2))
    _ (λ _, True) _ (λ _ _ _, I) ) with (acc := <[k := cell]> acc).
  - rewrite put_put. unfold inflate_step.
    by rewrite <- (foldl_block (λ a c, add_dead c a)).
  - intros i s' a _ _ Ha.
    apply (forM_put nw
      (λ j a', add_dead (mkCoord (int_add (x k) i) (int_add (y k) j)) a')
      _ (λ _, True)); try done.
    intros j s'' a' _ _ Ha'. by apply add_dead_run.
  - done.
  - by eapply heap_put_Some.
Qed.

Lemma add_dead_lookup c acc c' :
  add_dead c acc !! c'
  = match acc !! c' with
    | Some v => Some v
    | None => if decide (c' = c) then Some dead else None
    end.
Proof.
  unfold add_dead. destruct (decide (c' = c)) as [->|Hne].
  - case_bool_decide as Hc.
    + by destruct Hc as [v ->].
    + rewrite lookup_insert_eq. destruct (acc !! c) eqn:E; [|done].
      exfalso. apply Hc. by eexists.
  - case_bool_decide; [by destruct (acc !! c')|].
    rewrite lookup_insert_ne by done. by destruct (acc !! c').
Qed.

Lemma foldl_add_dead_lookup cs acc c' :
  foldl (λ a c, add_dead c a) acc cs !! c'
  = match acc !! c' with
    | Some v => Some v
    | None => if decide (c' ∈ cs) then Some dead else None
    end.
Proof.
  revert acc. induction cs as [|c cs IH]; intros acc; simpl.
  - by destruct (acc !! c').
  - rewrite IH, add_dead_lookup. destruct (acc !! c') as [v|]; [done|].
    destruct (decide (c' = c)) as [->|Hne].
    + by rewrite decide_True by left.
    + destruct (decide (c' ∈ cs)).
      * by rewrite decide_True by (by right).
      * rewrite decide_False; [done|]. by intros [?|?]%elem_of_cons.
Qed.

Lemma inflate_step_lookup k cell acc c :
  inflate_step k cell acc !! c
  = if decide (c = k) then Some cell
    else match acc !! c with
         | Some v => Some v
         | None => if decide (c ∈ block k) then Some dead else None
         end.
Proof.
  unfold inflate_step. rewrite foldl_add_dead_lookup.
  destruct (decide (c = k)) as [->|Hne].
  - by rewrite lookup_insert_eq.
  - by rewrite lookup_insert_ne.
Qed.

Lemma elem_of_halo (D : gset Coord) c : c ∈ halo D ↔ ∃ k, k ∈ D ∧ c ∈ block k.
Proof.
  unfold halo. rewrite elem_of_set_bind. split.
  - intros (k & Hk & Hc). exists k. split; [done|]. by apply elem_of_list_to_set in Hc.
  - intros (k & Hk & Hc). exists k. split; [done|]. by apply elem_of_list_to_set.
Qed.

Lemma inflate_lookup (w : World) c :
  inflate w !! c
  = match w !! c with
    | Some v => Some v
    | None => if decide (c ∈ halo (dom w)) then Some dead else None
    end.
Proof.
  unfold inflate. rewrite lookup_union, lookup_gset_to_gmap.
  destruct (w !! c) as [v|]; simpl.
  - by destruct (guard _).
  - destruct (decide (c ∈ halo (dom w))).
    + by rewrite option_guard_True.
    + by rewrite option_guard_False.
Qed.

Lemma inflate_insert (w : World) k cell :
  inflate (<[k := cell]> w) = inflate_step k cell (inflate w).
Proof.
  apply map_eq. intros c. rewrite inflate_step_lookup, !inflate_lookup.
  destruct (decide (c = k)) as [->|Hne].
  - by rewrite lookup_insert_eq.
  - rewrite lookup_insert_ne by done. destruct (w !! c) as [v|]; [done|].
    destruct (decide (c ∈ halo (dom w))) as [Hin|Hnin].
    + rewrite decide_True; [done|].
      apply elem_of_halo in Hin as (k' & Hk' & Hc). apply elem_of_halo.
      exists k'. split; [|done]. rewrite dom_insert_L. apply elem_of_union. by right.
    + destruct (decide (c ∈ block k)) as [Hb|Hnb].
      * rewrite decide_True; [done|]. apply elem_of_halo. exists k. split; [|done].
        rewrite dom_insert_L. apply elem_of_union. left. by apply elem_of_singleton.
      * rewrite decide_False; [done|]. intros (k' & Hk' & Hc)%elem_of_halo.
        rewrite dom_insert_L in Hk'. apply elem_of_union in Hk' as [Hk'|Hk'].
        -- apply elem_of_singleton in Hk' as ->. done.
        -- apply Hnin, elem_of_halo. by exists k'.
Qed.

Lemma inflate_empty : inflate ∅ = ∅.
Proof.
  apply map_eq. intros c. rewrite inflate_lookup, lookup_empty.
  rewrite decide_False; [done|]. intros (k & Hk & _)%elem_of_halo.
  rewrite dom_empty_L in Hk. by apply not_elem_of_empty in Hk.
Qed.

Lemma fold_keys_inflate (w : World) ks :
  ks ≡ₚ (map_to_list w).*1 →
  foldl (λ acc k, match w !! k with
                  | Some cell => inflate_step k cell acc
                  | None => acc
                  end) ∅ ks
  = inflate w.
Proof.
  intros Hks.
  transitivity (inflate (foldl (λ acc k, match w !! k with
                                         | Some cell => <[k := cell]> acc
                                         | None => acc
                                         end) ∅ ks)).
  2:{ by rewrite fold_keys_copy. }
  rewrite <- inflate_empty at 1. generalize (∅ : World). clear Hks.
  induction ks as [|k ks' IH]; intros w0; simpl; [done|].
  destruct (w !! k) as [cell|]; [|apply IH].
  rewrite <- inflate_insert. apply IH.
Qed.

Lemma Inflate_run world s w :
  fair s → heap s !! world = Some w →
  Inflate world s = (Ok (length (heap s)), alloc (inflate w) s).
Proof.
  intros Hfair Hw. unfold Inflate.
  bind_step ltac:(reflexivity).
  assert (Hne := ref_below _ _ _ Hw).
  erewrite bind_ok.
  2:{ apply (range_put world (length (heap s)) inflate_step _ _ w ∅);
        [done|by apply heap_kept|apply heap_fresh|].
      intros k cell s' acc' _ Hacc _. by apply Inflate_body. }
  unfold ret. f_equal. simpl loops. simpl sched.
  rewrite fold_keys_inflate by apply Hfair.
  apply alloc_put.
Qed.

(** *** Counting in place ([Tick] of [src/gol.go]) *)

Lemma is_alive_same w w' c : same_life w w' → is_alive w' c = is_alive w c.
Proof.
  intros H. unfold is_alive. specialize (H c).
  destruct (w' !! c), (w !! c); simpl in *; congruence.
Qed.

Lemma live_neighbours_same w w' c :
  same_life w w' → live_neighbours w' c = live_neighbours w c.
Proof.
  intros H. unfold live_neighbours. do 2 f_equal.
  apply list_filter_iff. intros c'. by rewrite (is_alive_same w w').
Qed.

Lemma counted_lookup (w : World) c : counted w !! c = recount w c <$> w !! c.
Proof. unfold counted. rewrite map_lookup_imap. by destruct (w !! c). Qed.

Lemma same_life_insert w w' k cell0 :
  same_life w w' → w !! k = Some cell0 →
  same_life w (<[k := recount w k cell0]> w').
Proof.
  intros H Hk c. destruct (decide (c = k)) as [->|Hne].
  - by rewrite lookup_insert_eq, Hk.
  - by rewrite lookup_insert_ne.
Qed.

(** One visit of the in-place loop, on a table that agrees with the
    original on keys and flags. *)
Lemma recount_step w w' k :
  same_life w w' →
  match w' !! k with
  | Some cell => <[k := mkCell (alive cell) (live_neighbours w' k)]> w'
  | None => w'
  end
  = match w !! k with
    | Some cell0 => <[k := recount w k cell0]> w'
    | None => w'
    end.
Proof.
  intros H. pose proof (H k) as Hk. rewrite (live_neighbours_same w w') by done.
  destruct (w' !! k) as [cell|], (w !! k) as [cell0|]; simpl in Hk; try done.
  unfold recount. congruence.
Qed.

Lemma fold_recount_lookup w ks w' c :
  same_life w w' →
  foldl (λ a k, match a !! k with
                | Some cell => <[k := mkCell (alive cell) (live_neighbours a k)]> a
                | None => a
                end) w' ks !! c
  = if decide (c ∈ ks) then recount w c <$> w !! c else w' !! c.
Proof.
  revert w'. induction ks as [|k ks IH]; intros w' H; simpl; [done|].
  rewrite (recount_step w w' k H).
  destruct (w !! k) as [cell0|] eqn:Hk.
  - rewrite IH by (by apply same_life_insert).
    destruct (decide (c = k)) as [->|Hne].
    + rewrite (decide_True (P := k ∈ k :: ks)) by left.
      rewrite lookup_insert_eq, Hk. by destruct (decide (k ∈ ks)).
    + rewrite lookup_insert_ne by done. destruct (decide (c ∈ ks)).
      * by rewrite decide_True by (by right).
      * rewrite decide_False; [done|]. by intros [?|?]%elem_of_cons.
  - rewrite IH by done. destruct (decide (c ∈ ks)).
    + by rewrite decide_True by (by right).
    + destruct (decide (c ∈ k :: ks)) as [[->|?]%elem_of_cons|]; try done.
      rewrite Hk. simpl. specialize (H k). rewrite Hk in H.
      by destruct (w' !! k).
Qed.

Lemma fold_keys_recount (w : World) ks :
  ks ≡ₚ (map_to_list w).*1 →
  foldl (λ a k, match a !! k with
                | Some cell => <[k := mkCell (alive cell) (live_neighbours a k)]> a
                | None => a
                end) w ks
  = counted w.
Proof.
  intros Hks. apply map_eq. intros c.
  rewrite (fold_recount_lookup w) by done. rewrite counted_lookup.
  destruct (decide (c ∈ ks)) as [|Hnin]; [done|].
  destruct (w !! c) as [cell|] eqn:Hc; [|done].
  exfalso. apply Hnin. by apply (elem_of_walk w).
Qed.

(** The state a call of the in-place [Tick] leaves: the receiver holds the
    counts, the result is a new table. *)
Lemma Single_Tick_run world s w :
  fair s → heap s !! world = Some w →
  Single.Tick world s
  = (Ok (length (heap s)),
     alloc (ruled (counted w)) (put world (counted w) (started s))).
Proof.
  intros Hfair Hw. unfold Single.Tick.
  erewrite bind_ok.
  2:{ apply (range_self world
               (λ k cell w', <[k := mkCell (alive cell) (live_neighbours w' k)]> w') _ s w Hw).
      intros k cell s' w' Hw' Hk.
      bind_step ltac:(by apply countAround_run).
      by apply assign_run. }
  rewrite fold_keys_recount by apply Hfair.
  pose proof (ApplyRules_run world (put world (counted w) (started s)) (counted w)) as Hrun.
  unfold Staged.ApplyRules in Hrun. rewrite Hrun.
  - f_equal. simpl. by rewrite length_insert.
  - done.
  - by eapply heap_put_Some.
Qed.

(** ** One generation *)

Lemma Staged_Tick_run world s w :
  fair s → heap s !! world = Some w →
  Staged.Tick world s
  = (Ok (length (heap s) + 3)%nat,
     grow [inflate w; counted (inflate w); ruled (counted (inflate w)); tick w] 4 s).
Proof.
  intros Hfair Hw. unfold Staged.Tick.
  bind_step ltac:(by apply Inflate_run).
  erewrite bind_ok; [|apply CountLiveNeighbours_run; [done|apply heap_fresh]].
  erewrite bind_ok; [|apply ApplyRules_run; [done|apply heap_fresh]].
  erewrite Deflate_run; [|done|apply heap_fresh].
  unfold alloc, grow, tick. simpl. rewrite !length_app. simpl.
  f_equal; [f_equal; lia|]. f_equal. by rewrite <- !app_assoc.
Qed.

Lemma Single_generation_run world s w :
  fair s → heap s !! world = Some w →
  Single.generation world s
  = (Ok (length (heap s) + 2)%nat,
     grow [counted (inflate w); ruled (counted (inflate w)); tick w] 4 s).
Proof.
  intros Hfair Hw. unfold Single.generation.
  bind_step ltac:(by apply Inflate_run).
  erewrite bind_ok; [|apply Single_Tick_run; [done|apply heap_fresh]].
  erewrite Deflate_run; [|done|].
  2:{ simpl. rewrite lookup_app_r by (by rewrite length_insert).
      by rewrite length_insert, Nat.sub_diag. }
  unfold alloc, grow, tick, put, started, set_heap. simpl.
  rewrite !length_app, length_insert, !length_app. simpl.
  f_equal; [f_equal; lia|]. f_equal.
  rewrite insert_app_r_alt by lia. rewrite Nat.sub_diag. simpl.
  by rewrite <- !app_assoc.
Qed.

Lemma Cobra_generation_run world s w :
  fair s → heap s !! world = Some w →
  Cobra.generation world s
  = (Ok (length (heap s) + 2)%nat,
     grow [counted (inflate w); ruled (counted (inflate w)); tick w] 4 s).
Proof. apply Single_generation_run. Qed.

Lemma heap_grow_last new v k s :
  heap (grow (new ++ [v]) k s) !! (length (heap s) + length new)%nat = Some v.
Proof.
  simpl. rewrite app_assoc. rewrite lookup_app_r by (rewrite length_app; lia).
  rewrite length_app. by replace (_ - _)%nat with 0%nat by lia.
Qed.

(** ** The next generation, read off the input *)

Lemma deflate_lookup (w : World) c :
  deflate w !! c
  = match w !! c with
    | Some cell => if alive cell then Some cell else None
    | None => None
    end.
Proof. rewrite <- deflate_imap, map_lookup_imap. by destruct (w !! c). Qed.

Lemma ruled_lookup (w : World) c :
  ruled w !! c = match w !! c with Some cell => fate cell | None => None end.
Proof. unfold ruled. rewrite lookup_omap. by destruct (w !! c). Qed.

Lemma fate_live cell v : fate cell = Some v → v = live.
Proof.
  unfold fate. destruct (alive cell), ((1 <? n cell) && (n cell <? 4)), (n cell =? 3);
    congruence.
Qed.

Lemma tick_lookup_raw (w : World) c :
  tick w !! c
  = match inflate w !! c with
    | Some cell => fate (recount (inflate w) c cell)
    | None => None
    end.
Proof.
  unfold tick. rewrite deflate_lookup, ruled_lookup, counted_lookup.
  destruct (inflate w !! c) as [cell|]; simpl; [|done].
  destruct (fate _) as [v|] eqn:Hv; [|done].
  by apply fate_live in Hv as ->.
Qed.

Lemma tick_live (w : World) c cell : tick w !! c = Some cell → cell = live.
Proof.
  rewrite tick_lookup_raw. destruct (inflate w !! c); [|done]. apply fate_live.
Qed.

Lemma live_neighbours_ext w w' c :
  (∀ c', is_alive w' c' = is_alive w c') → live_neighbours w' c = live_neighbours w c.
Proof.
  intros H. unfold live_neighbours. do 2 f_equal.
  apply list_filter_iff. intros c'. by rewrite H.
Qed.

Lemma is_alive_inflate w c : is_alive (inflate w) c = is_alive w c.
Proof.
  unfold is_alive. rewrite inflate_lookup. destruct (w !! c); [done|].
  by destruct (decide _).
Qed.

Lemma elem_of_upto i : i ∈ upto (-1) 2 ↔ -1 ≤ i ≤ 1.
Proof.
  change (upto (-1) 2) with [-1; 0; 1]. rewrite !elem_of_cons, elem_of_nil. lia.
Qed.

Lemma elem_of_block c c' :
  c' ∈ block c ↔ ∃ i j, -1 ≤ i ≤ 1 ∧ -1 ≤ j ≤ 1 ∧ c' = move i j c.
Proof.
  unfold block. rewrite list_elem_of_bind. split.
  - intros (i & Hj & Hi). apply list_elem_of_bind in Hj as (j & Hc & Hj).
    apply list_elem_of_singleton in Hc. exists i, j.
    by rewrite <- !elem_of_upto.
  - intros (i & j & Hi & Hj & ->). exists i. split; [|by apply elem_of_upto].
    apply list_elem_of_bind. exists j. split; [|by apply elem_of_upto].
    by apply list_elem_of_singleton.
Qed.

Lemma elem_of_neighbours c c' :
  c' ∈ neighbours c ↔
  ∃ i j, -1 ≤ i ≤ 1 ∧ -1 ≤ j ≤ 1 ∧ (i ≠ 0 ∨ j ≠ 0) ∧ c' = move i j c.
Proof.
  unfold neighbours. rewrite list_elem_of_bind. split.
  - intros (i & Hj & Hi). apply list_elem_of_bind in Hj as (j & Hc & Hj).
    exists i, j. rewrite <- !elem_of_upto. do 2 (split; [done|]).
    destruct (negb (i =? 0) || negb (j =? 0)) eqn:Hij.
    + apply list_elem_of_singleton in Hc. split; [lia|done].
    + by apply elem_of_nil in Hc.
  - intros (i & j & Hi & Hj & Hij & ->). exists i. split; [|by apply elem_of_upto].
    apply list_elem_of_bind. exists j. split; [|by apply elem_of_upto].
    replace (negb (i =? 0) || negb (j =? 0)) with true by lia.
    by apply list_elem_of_singleton.
Qed.

Lemma move_back i j c : is_coord c → move (- i) (- j) (move i j c) = c.
Proof.
  intros [Hx Hy]. destruct c as [cx cy]. unfold move. simpl in *.
  by rewrite !int_add_cancel.
Qed.

Lemma move_is_coord i j c : is_coord (move i j c).
Proof. split; apply int_add_is_int. Qed.

Lemma neighbour_block c c' : is_coord c → c' ∈ neighbours c → c ∈ block c'.
Proof.
  intros Hc (i & j & Hi & Hj & _ & ->)%elem_of_neighbours.
  apply elem_of_block. exists (- i), (- j).
  split; [lia|]. split; [lia|]. by rewrite move_back.
Qed.

Lemma is_alive_Some w c : is_alive w c = true → is_Some (w !! c).
Proof. unfold is_alive. destruct (w !! c); [by eexists|done]. Qed.

(** Away from every key, nothing is alive around. *)
Lemma live_neighbours_far w c :
  is_coord c → c ∉ halo (dom w) → live_neighbours w c = 0.
Proof.
  intros Hc Hfar. unfold live_neighbours.
  destruct (filter _ (neighbours c)) as [|c' l] eqn:E; [done|].
  assert (c' ∈ filter (λ c', is_alive w c' = true) (neighbours c)) as Hc'
      by (rewrite E; left).
  apply list_elem_of_filter in Hc' as [Halive Hc'].
  exfalso. apply Hfar, elem_of_halo.
  exists c'. split; [by apply elem_of_dom, is_alive_Some|by apply neighbour_block].
Qed.

Lemma fate_b3s23 w c cell :
  is_alive w c = alive cell →
  fate (mkCell (alive cell) (live_neighbours w c))
  = if b3s23 w c then Some live else None.
Proof.
  intros Hc. unfold fate, b3s23. rewrite Hc. simpl.
  destruct (alive cell).
  - destruct (live_neighbours w c =? 2) eqn:E2, (live_neighbours w c =? 3) eqn:E3;
      simpl; first [by replace ((1 <? _) && (_ <? 4)) with true by lia
                   |by replace ((1 <? _) && (_ <? 4)) with false by lia].
  - done.
Qed.

(** B3/S23 at every coordinate of the grid. *)
Lemma tick_lookup (w : World) c :
  is_coord c → tick w !! c = if b3s23 w c then Some live else None.
Proof.
  intros Hc. rewrite tick_lookup_raw. unfold recount.
  rewrite (live_neighbours_ext w (inflate w)) by apply is_alive_inflate.
  rewrite inflate_lookup. destruct (w !! c) as [cell|] eqn:Hw.
  - apply fate_b3s23. unfold is_alive. by rewrite Hw.
  - destruct (decide (c ∈ halo (dom w))) as [Hin|Hfar].
    + apply (fate_b3s23 w c dead). unfold is_alive. by rewrite Hw.
    + unfold b3s23, is_alive. rewrite Hw. simpl.
      by rewrite live_neighbours_far.
Qed.



(** ** Tables that differ in their counters only *)

Lemma same_life_dom w w' : same_life w w' → dom w' = dom w.
Proof.
  intros H. apply set_eq. intros c. rewrite !elem_of_dom. specialize (H c).
  destruct (w' !! c), (w !! c); simpl in H; try done; split; intros [? ?]; done.
Qed.

Lemma same_life_inflate w w' : same_life w w' → same_life (inflate w) (inflate w').
Proof.
  intros H c. rewrite !inflate_lookup, (same_life_dom w w' H). specialize (H c).
  destruct (w' !! c), (w !! c); simpl in *; try done.
Qed.

Lemma same_life_counted_eq w w' : same_life w w' → counted w' = counted w.
Proof.
  intros H. apply map_eq. intros c. rewrite !counted_lookup. unfold recount.
  rewrite (live_neighbours_same w w' c H). specialize (H c).
  destruct (w' !! c), (w !! c); simpl in *; congruence.
Qed.

Lemma same_life_tick w w' : same_life w w' → tick w' = tick w.
Proof.
  intros H. unfold tick.
  by rewrite (same_life_counted_eq (inflate w) (inflate w')) by by apply same_life_inflate.
Qed.

(** ** Nothing comes of nothing *)

Lemma tick_empty : tick ∅ = ∅.
Proof.
  apply map_eq. intros c. rewrite tick_lookup_raw, inflate_empty. by rewrite !lookup_empty.
Qed.

Lemma iter_tick_empty k : Nat.iter k tick ∅ = ∅.
Proof. induction k as [|k IH]; simpl; [done|]. by rewrite IH, tick_empty. Qed.

(** ** Iterating [Tick] *)

Lemma repeat_Tick_run (k : nat) world s w :
  fair s → heap s !! world = Some w →
  ∃ r s', repeatM k Staged.Tick world s = (Ok r, s')
          ∧ heap s' !! r = Some (Nat.iter k tick w)
          ∧ sched s' = sched s ∧ stdout s' = stdout s
          ∧ (∀ m v, heap s !! m = Some v → heap s' !! m = Some v).
Proof.
  revert world s w. induction k as [|k IH]; intros world s w Hfair Hw; simpl.
  - by exists world, s.
  - erewrite bind_ok; [|by apply Staged_Tick_run].
    destruct (IH (length (heap s) + 3)%nat
                 (grow [inflate w; counted (inflate w); ruled (counted (inflate w)); tick w] 4 s)
                 (tick w)) as (r & s' & Hrun & Hr & Hsched & Hout & Hold).
    + done.
    + apply (heap_grow_last [inflate w; counted (inflate w); ruled (counted (inflate w))]).
    + exists r, s'. rewrite <- Nat.iter_succ_r in Hr. repeat split; try done.
      intros m v Hm. apply Hold. simpl. by apply lookup_app_l_Some.
Qed.

(** The run lemmas in the form the claims use: the call ends well, its
    result is a table holding [tick w], and the state has only grown. *)
Lemma Staged_Tick_result world s w :
  fair s → heap s !! world = Some w →
  ∃ r s', Staged.Tick world s = (Ok r, s')
          ∧ heap s' !! r = Some (tick w)
          ∧ s' = grow [inflate w; counted (inflate w); ruled (counted (inflate w)); tick w] 4 s.
Proof.
  intros Hfair Hw. eexists _, _. split; [by apply Staged_Tick_run|]. split; [|done].
  apply (heap_grow_last [inflate w; counted (inflate w); ruled (counted (inflate w))]).
Qed.

Lemma Single_generation_result world s w :
  fair s → heap s !! world = Some w →
  ∃ r s', Single.generation world s = (Ok r, s')
          ∧ heap s' !! r = Some (tick w)
          ∧ s' = grow [counted (inflate w); ruled (counted (inflate w)); tick w] 4 s.
Proof.
  intros Hfair Hw. eexists _, _. split; [by apply Single_generation_run|]. split; [|done].
  apply (heap_grow_last [counted (inflate w); ruled (counted (inflate w))]).
Qed.

Lemma Single_Tick_result world s w :
  fair s → heap s !! world = Some w →
  ∃ r s', Single.Tick world s = (Ok r, s')
          ∧ heap s' !! r = Some (ruled (counted w))
          ∧ heap s' !! world = Some (counted w)
          ∧ r = length (heap s).
Proof.
  intros Hfair Hw. eexists _, _. split; [by apply Single_Tick_run|].
  assert (world < length (heap s))%nat by by eapply lookup_lt_Some.
  simpl. split; [|split; [|done]].
  - rewrite lookup_app_r by (by rewrite length_insert).
    by rewrite length_insert, Nat.sub_diag.
  - rewrite lookup_app_l by (by rewrite length_insert).
    by apply list_lookup_insert_eq.
Qed.

(** ** Translation *)

Lemma int_add_uncancel a b : is_int a → int_add (int_add a (- b)) b = a.
Proof.
  intros. rewrite int_add_add.
  replace (a + - b + b) with a by lia. by apply int_wrap_id.
Qed.

Lemma move_forth i j c : is_coord c → move i j (move (- i) (- j) c) = c.
Proof.
  intros [Hx Hy]. destruct c as [cx cy]. unfold move. simpl in *.
  by rewrite !int_add_uncancel.
Qed.

Lemma move_move i j i' j' c : move i j (move i' j' c) = move i' j' (move i j c).
Proof.
  unfold move. simpl. by rewrite (int_add_swap (x c)), (int_add_swap (y c)).
Qed.

Lemma elem_of_shift dx dy S c :
  c ∈ shift dx dy S ↔ ∃ c0, c0 ∈ S ∧ c = move dx dy c0.
Proof.
  unfold shift. rewrite elem_of_map. split; intros (c0 & ? & ?); by exists c0.
Qed.

Lemma coords_shift dx dy S : coords (shift dx dy S).
Proof. intros c (c0 & _ & ->)%elem_of_shift. apply move_is_coord. Qed.

(** On the grid a translation is undone by the opposite one. *)
Lemma elem_of_shift_back dx dy S c :
  coords S → is_coord c → c ∈ shift dx dy S ↔ move (- dx) (- dy) c ∈ S.
Proof.
  intros HS Hc. rewrite elem_of_shift. split.
  - intros (c0 & Hc0 & ->). by rewrite move_back by by apply HS.
  - intros Hin. exists (move (- dx) (- dy) c). split; [done|]. by rewrite move_forth.
Qed.

Lemma live_world_lookup S c :
  live_world S !! c = if decide (c ∈ S) then Some live else None.
Proof.
  unfold live_world. rewrite lookup_gset_to_gmap.
  destruct (decide (c ∈ S)); [by rewrite option_guard_True|by rewrite option_guard_False].
Qed.

Lemma is_alive_live_world S c : is_alive (live_world S) c = bool_decide (c ∈ S).
Proof.
  unfold is_alive. rewrite live_world_lookup.
  destruct (decide (c ∈ S)); [by rewrite bool_decide_true|by rewrite bool_decide_false].
Qed.

Lemma dom_live_world S : dom (live_world S) = S.
Proof. unfold live_world. apply dom_gset_to_gmap. Qed.

Lemma tick_live_world (w : World) : tick w = live_world (dom (tick w)).
Proof.
  apply map_eq. intros c. rewrite live_world_lookup.
  destruct (tick w !! c) as [cell|] eqn:Hc.
  - rewrite decide_True by (apply elem_of_dom; by eexists).
    by apply tick_live in Hc as ->.
  - rewrite decide_False; [done|]. rewrite elem_of_dom, Hc. by intros [? ?].
Qed.

Lemma tick_next S : tick (live_world S) = live_world (next S).
Proof. apply tick_live_world. Qed.

Lemma block_is_coord k c : c ∈ block k → is_coord c.
Proof. intros (i & j & _ & _ & ->)%elem_of_block. apply move_is_coord. Qed.

(** The keys of the next generation lie on the grid when those of the
    input do. *)
Lemma tick_key_coord (w : World) c :
  (∀ k, is_Some (w !! k) → is_coord k) → is_Some (tick w !! c) → is_coord c.
Proof.
  intros Hw [v Hv]. rewrite tick_lookup_raw, inflate_lookup in Hv.
  destruct (w !! c) as [cell|] eqn:Hc; [by apply Hw|].
  destruct (decide (c ∈ halo (dom w))) as [(k & _ & Hk)%elem_of_halo|]; [|done].
  by eapply block_is_coord.
Qed.

Lemma coords_next S : coords S → coords (next S).
Proof.
  intros HS c Hc. unfold next in Hc. apply elem_of_dom in Hc.
  apply (tick_key_coord (live_world S)); [|done].
  intros k [v Hk]. rewrite live_world_lookup in Hk.
  destruct (decide (k ∈ S)); [by apply HS|done].
Qed.

Lemma elem_of_next S c : coords S → c ∈ next S ↔ is_coord c ∧ b3s23 (live_world S) c = true.
Proof.
  intros HS. split.
  - intros Hc. assert (is_coord c) as Hcoord by by apply (coords_next S).
    split; [done|]. unfold next in Hc. apply elem_of_dom in Hc as [v Hv].
    rewrite tick_lookup in Hv by done. by destruct (b3s23 _ _).
  - intros [Hcoord Hb]. unfold next. apply elem_of_dom.
    rewrite tick_lookup, Hb by done. by eexists.
Qed.

Lemma neighbours_move dx dy c :
  neighbours (move dx dy c) = move dx dy <$> neighbours c.
Proof.
  change (neighbours (move dx dy c)) with
    [ move (-1) (-1) (move dx dy c); move (-1) 0 (move dx dy c);
      move (-1) 1 (move dx dy c); move 0 (-1) (move dx dy c); move 0 1 (move dx dy c);
      move 1 (-1) (move dx dy c); move 1 0 (move dx dy c); move 1 1 (move dx dy c) ].
  change (neighbours c) with
    [ move (-1) (-1) c; move (-1) 0 c; move (-1) 1 c; move 0 (-1) c; move 0 1 c;
      move 1 (-1) c; move 1 0 c; move 1 1 c ].
  simpl. by rewrite !(move_move _ _ dx dy).
Qed.

Lemma neighbours_is_coord c c' : c' ∈ neighbours c → is_coord c'.
Proof. intros (i & j & _ & _ & _ & ->)%elem_of_neighbours. apply move_is_coord. Qed.

Lemma length_filter_fmap {A B} (f : A → B) (P : B → Prop) (Q : A → Prop)
    `{∀ b, Decision (P b)} `{∀ a, Decision (Q a)} (l : list A) :
  (∀ a, a ∈ l → P (f a) ↔ Q a) →
  length (filter P (f <$> l)) = length (filter Q l).
Proof.
  induction l as [|a l IH]; intros HPQ; [done|].
  rewrite fmap_cons, !filter_cons.
  assert (length (filter P (f <$> l)) = length (filter Q l)) as IH'.
  { apply IH. intros a' Ha'. apply HPQ. by right. }
  destruct (decide (P (f a))) as [HP|HP], (decide (Q a)) as [HQ|HQ]; simpl;
    try (by rewrite IH').
  - exfalso. apply HQ, HPQ; [left|done].
  - exfalso. apply HP, HPQ; [left|done].
Qed.

Lemma live_neighbours_shift dx dy S c :
  coords S →
  live_neighbours (live_world (shift dx dy S)) c
  = live_neighbours (live_world S) (move (- dx) (- dy) c).
Proof.
  intros HS. unfold live_neighbours. f_equal.
  rewrite neighbours_move. symmetry. apply length_filter_fmap.
  intros c' Hc'. rewrite !is_alive_live_world.
  rewrite !bool_decide_eq_true. symmetry.
  apply elem_of_shift_back; [done|]. by eapply neighbours_is_coord.
Qed.

Lemma b3s23_shift dx dy S c :
  coords S → is_coord c →
  b3s23 (live_world (shift dx dy S)) c = b3s23 (live_world S) (move (- dx) (- dy) c).
Proof.
  intros HS Hc. unfold b3s23. rewrite live_neighbours_shift by done.
  rewrite !is_alive_live_world.
  by rewrite (bool_decide_ext _ _ (elem_of_shift_back dx dy S c HS Hc)).
Qed.

(** One generation commutes with translation. *)
Lemma next_shift dx dy S : coords S → next (shift dx dy S) = shift dx dy (next S).
Proof.
  intros HS. apply set_eq. intros c.
  rewrite elem_of_next by apply coords_shift. split.
  - intros [Hc Hb]. apply elem_of_shift_back; [by apply coords_next|done|].
    apply elem_of_next; [done|]. split; [apply move_is_coord|].
    by rewrite <- b3s23_shift.
  - intros Hc. assert (is_coord c) as Hcoord by by eapply coords_shift.
    split; [done|].
    apply elem_of_shift_back in Hc; [|by apply coords_next|done].
    apply elem_of_next in Hc as [_ Hb]; [|done]. by rewrite b3s23_shift.
Qed.

Lemma coords_iter_next k S : coords S → coords (Nat.iter k next S).
Proof. intros HS. induction k as [|k IH]; simpl; [done|by apply coords_next]. Qed.

Lemma iter_tick_live_world k S :
  Nat.iter k tick (live_world S) = live_world (Nat.iter k next S).
Proof. induction k as [|k IH]; simpl; [done|]. by rewrite IH, tick_next. Qed.

Lemma iter_next_shift k dx dy S :
  coords S → Nat.iter k next (shift dx dy S) = shift dx dy (Nat.iter k next S).
Proof.
  intros HS. induction k as [|k IH]; simpl; [done|].
  rewrite IH. apply next_shift. by apply coords_iter_next.
Qed.

Lemma size_list_to_set_le (l : list Coord) :
  (size (list_to_set l : gset Coord) ≤ length l)%nat.
Proof.
  induction l as [|a l IH].
  - by rewrite list_to_set_nil, size_empty.
  - rewrite list_to_set_cons, size_union_alt, size_singleton. simpl.
    assert (size (list_to_set l ∖ {[a]} : gset Coord) ≤ size (list_to_set l : gset Coord))%nat
      by (apply subseteq_size, subseteq_difference_l; done).
    lia.
Qed.

Lemma size_shift dx dy S : (size (shift dx dy S) ≤ size S)%nat.
Proof.
  unfold shift, set_map. etrans; [apply size_list_to_set_le|].
  by rewrite length_fmap.
Qed.

(** ** Frames *)

Lemma untouched_alloc v s : untouched s (alloc v s).
Proof. split; [|done]. intros m w Hm. simpl. by apply lookup_app_l_Some. Qed.

Lemma untouched_grow new k s : untouched s (grow new k s).
Proof. split; [|done]. intros m w Hm. simpl. by apply lookup_app_l_Some. Qed.

Lemma heap_alloc_fresh v s : heap (alloc v s) !! length (heap s) = Some v.
Proof. simpl. by rewrite lookup_app_r, Nat.sub_diag. Qed.

Lemma framed_alloc (m : M ref) s v :
  m s = (Ok (length (heap s)), alloc v s) → framed m s.
Proof.
  intros Hrun. eexists _, _. split; [done|]. split; [|split].
  - by apply lookup_ge_None.
  - rewrite heap_alloc_fresh. by eexists.
  - apply untouched_alloc.
Qed.

Lemma framed_grow (m : M ref) s r w new k :
  m s = (Ok r, grow new k s) → heap (grow new k s) !! r = Some w →
  (length (heap s) ≤ r)%nat → framed m s.
Proof.
  intros Hrun Hr Hge. eexists _, _. split; [done|]. split; [|split].
  - by apply lookup_ge_None.
  - by eexists.
  - apply untouched_grow.
Qed.

(** ** Output *)

Lemma emit_nil s : emit [] s = s.
Proof. destruct s. unfold emit. simpl. by rewrite app_nil_r. Qed.

Lemma emit_emit l1 l2 s : emit l2 (emit l1 s) = emit (l1 ++ l2) s.
Proof. unfold emit. simpl. by rewrite app_assoc. Qed.

Lemma println_run l s : println l s = (Ok tt, emit [l] s).
Proof. done. Qed.

Lemma forM_print (world : ref) (line : Coord → Line) (w : World) (l : list Coord) s :
  heap s !! world = Some w →
  (∀ k, k ∈ l → is_Some (w !! k)) →
  forM l (λ k s', match world_at s' world !! k with
                  | Some cell => println (line k) s'
                  | None => (Ok tt, s')
                  end) s
  = (Ok tt, emit (line <$> l) s).
Proof.
  revert s. induction l as [|k l IH]; intros s Hw Hl; simpl.
  - by rewrite emit_nil.
  - unfold bind at 1. rewrite (world_at_Some _ _ _ Hw).
    destruct (Hl k) as [cell ->]; [left|]. rewrite println_run.
    rewrite IH; [by rewrite emit_emit|done|].
    intros k' Hk'. apply Hl. by right.
Qed.

Lemma range_print (world : ref) (line : Coord → Line) s w :
  fair s → heap s !! world = Some w →
  range world (λ coord _, println (line coord)) s
  = (Ok tt, emit (line <$> sched s (loops s) w) (started s)).
Proof.
  intros Hfair Hw. unfold range. rewrite (world_at_Some _ _ _ Hw).
  apply (forM_print world line w); [done|].
  intros k Hk. by apply (elem_of_walk w (sched s (loops s) w)).
Qed.

Lemma gnuplotWorld_run world s w :
  fair s → heap s !! world = Some w →
  gnuplotWorld world s
  = (Ok tt, emit (plot_block "plot '-' with points ls 1" (sched s (loops s) w)) (started s)).
Proof.
  intros Hfair Hw. unfold gnuplotWorld.
  bind_step ltac:(apply println_run).
  bind_step ltac:(by apply range_print).
  rewrite println_run. unfold plot_block, emit, started. simpl.
  by rewrite <- !app_assoc.
Qed.

Lemma Single_gnuplotWorld_run world s w :
  fair s → heap s !! world = Some w →
  Single.gnuplotWorld world s
  = (Ok tt, emit (plot_block "plot '-' with points pointtype 6" (sched s (loops s) w))
                 (started s)).
Proof.
  intros Hfair Hw. unfold Single.gnuplotWorld.
  bind_step ltac:(apply println_run).
  bind_step ltac:(by apply range_print).
  rewrite println_run. unfold plot_block, emit, started. simpl.
  by rewrite <- !app_assoc.
Qed.

Lemma gnuplotHeader_run d s : gnuplotHeader d s = (Ok tt, emit (header_lines d) s).
Proof.
  unfold gnuplotHeader. do 2 (erewrite bind_ok; [|apply println_run]).
  rewrite println_run. by rewrite !emit_emit.
Qed.

(** *** The loop of [main]: compute a generation, print it *)

Section print_loop.
Variable step : ref → M ref.
Variable show : ref → M unit.
Variable cmd : string.

Hypothesis step_run : ∀ world s w,
  fair s → heap s !! world = Some w →
  ∃ r s', step world s = (Ok r, s') ∧ heap s' !! r = Some (tick w)
          ∧ sched s' = sched s ∧ stdout s' = stdout s.
Hypothesis show_run : ∀ world s w,
  fair s → heap s !! world = Some w →
  show world s = (Ok tt, emit (plot_block cmd (sched s (loops s) w)) (started s)).

Lemma fair_sched s s' : sched s' = sched s → fair s → fair s'.
Proof. unfold fair. by intros ->. Qed.

Lemma plots_next w from blocks :
  plots cmd (tick w) from blocks → plots cmd w (S from) blocks.
Proof.
  unfold plots. rewrite <- fmap_S_seq, Forall2_fmap_r. intros H.
  eapply Forall2_impl; [exact H|]. simpl.
  intros b i (ks & Hks & ->). exists ks. split; [|done].
  rewrite <- Nat.iter_succ_r in Hks. exact Hks.
Qed.

Lemma print_loop_run (k : nat) world s w :
  fair s → heap s !! world = Some w →
  ∃ r s' blocks,
    repeatM k (λ world, world' ← step world; show world';; ret world')%go world s
    = (Ok r, s')
    ∧ stdout s' = stdout s ++ concat blocks
    ∧ length blocks = k
    ∧ plots cmd w 1 blocks.
Proof.
  revert world s w. induction k as [|k IH]; intros world s w Hfair Hw; simpl.
  - exists world, s, []. repeat split; [by rewrite app_nil_r|constructor].
  - destruct (step_run world s w Hfair Hw) as (r1 & s1 & Hstep & Hr1 & Hsched1 & Hout1).
    assert (fair s1) as Hfair1 by exact (fair_sched s s1 Hsched1 Hfair).
    assert ((world' ← step world; show world';; ret world')%go s
            = (Ok r1, emit (plot_block cmd (sched s1 (loops s1) (tick w))) (started s1)))
      as Hbody.
    { erewrite bind_ok; [|done]. erewrite bind_ok; [reflexivity|by eapply show_run]. }
    destruct (IH r1 (emit (plot_block cmd (sched s1 (loops s1) (tick w))) (started s1))
                (tick w)) as (r & s' & blocks & Hrun & Hout & Hlen & Hplots);
      [done..|].
    exists r, s', (plot_block cmd (sched s1 (loops s1) (tick w)) :: blocks).
    split; [by erewrite bind_ok|]. split; [|split].
    + rewrite Hout. simpl. by rewrite Hout1, <- app_assoc.
    + simpl. by rewrite Hlen.
    + unfold plots. simpl. constructor.
      * exists (sched s1 (loops s1) (tick w)). split; [apply Hfair1|done].
      * by apply plots_next.
Qed.
End print_loop.

(** ** Reading the pattern *)

Lemma Atoi_error t e : Atoi t = inr e → e = mkNumError "Atoi" t.
Proof.
  unfold Atoi. destruct (match t with
                         | String "-"%char r => (true, r)
                         | String "+"%char r => (false, r)
                         | _ => (false, t)
                         end) as [neg body].
  destruct body; [congruence|].
  destruct (digits_val _ 0); [|congruence].
  destruct (_ && _); congruence.
Qed.

Lemma atoi_or_exit_run t s :
  atoi_or_exit t s
  = match Atoi t with
    | inl v => (Ok v, s)
    | inr e => (Exit 1, emit [ErrText e] s)
    end.
Proof. unfold atoi_or_exit. by destruct (Atoi t). Qed.

Lemma read_entry_body pattern world xy s w :
  heap s !! world = Some w →
  (let c := Split xy "," in
   (if (length c <? 2)%nat then
      (println (Text ("pattern error: " +:+ pattern +:+ " : " +:+ xy));;
       exit 1)
    else ret tt);;
   c0 ← elem c 0;
   x ← atoi_or_exit c0;
   c1 ← elem c 1;
   y ← atoi_or_exit c1;
   assign world (mkCoord x y) (mkCell true 0))%go s
  = match read_entry pattern xy with
    | inl c => (Ok tt, put world (<[c := live]> w) s)
    | inr l => (Exit 1, emit [l] s)
    end.
Proof.
  intros Hw. unfold read_entry. cbv zeta.
  destruct (Split xy ",") as [|c0 [|c1 rest]]; try done.
  change (length (c0 :: c1 :: rest) <? 2)%nat with false. cbv iota.
  bind_step ltac:(reflexivity).
  bind_step ltac:(reflexivity).
  unfold bind at 1. rewrite atoi_or_exit_run. destruct (Atoi c0) as [x0|e]; [|done].
  bind_step ltac:(reflexivity).
  unfold bind at 1. rewrite atoi_or_exit_run. destruct (Atoi c1) as [y0|e]; [|done].
  by apply assign_run.
Qed.

Lemma readPattern_run pattern world s w :
  heap s !! world = Some w →
  Cobra.readPattern pattern world s
  = let '(cs, r) := read_entries pattern (Split pattern ";") in
    let s1 := put world (foldl (λ w' c, <[c := live]> w') w cs) s in
    match r with
    | None => (Ok tt, s1)
    | Some l => (Exit 1, emit [l] s1)
    end.
Proof.
  unfold Cobra.readPattern. generalize (Split pattern ";") as entries.
  intros entries. revert s w.
  induction entries as [|xy rest IH]; intros s w Hw; cbn [forM read_entries].
  - unfold ret. simpl. by rewrite put_id.
  - pose proof (read_entry_body pattern world xy s w Hw) as Hbody.
    cbv zeta in Hbody. unfold bind at 1. rewrite Hbody.
    destruct (read_entry pattern xy) as [c|l].
    + rewrite (IH _ (<[c := live]> w)) by by eapply heap_put_Some.
      destruct (read_entries pattern rest) as [cs r]. simpl.
      rewrite put_put. done.
    + simpl. by rewrite put_id.
Qed.

Lemma flag_entry_body (coordinates : list string) idx entry (pat : list Coord) s :
  coordinates !! idx = Some entry →
  (entry ← elem coordinates idx;
   let xy := Split entry "," in
   xy0 ← elem xy 0;
   x ← atoi_or_exit xy0;
   xy1 ← elem xy 1;
   y ← atoi_or_exit xy1;
   ret (<[idx := mkCoord x y]> pat))%go s
  = match flag_entry entry with
    | (Ok c, _) => (Ok (<[idx := c]> pat), s)
    | (Exit code, ls) => (Exit code, emit ls s)
    | (Panic msg, _) => (Panic msg, s)
    end.
Proof.
  intros Hidx. unfold elem at 1. rewrite Hidx.
  erewrite bind_ok; [|reflexivity]. cbv zeta. unfold flag_entry.
  destruct (Split entry ",") as [|xy0 rest]; [done|].
  bind_step ltac:(reflexivity).
  unfold bind at 1. rewrite atoi_or_exit_run. destruct (Atoi xy0) as [x0|e]; [|done].
  destruct rest as [|xy1 rest]; [done|].
  bind_step ltac:(reflexivity).
  unfold bind at 1. rewrite atoi_or_exit_run. by destruct (Atoi xy1) as [y0|e].
Qed.

Lemma flag_fold_run (coordinates : list string) s (k : nat) :
  ∀ (i : nat) (pat : list Coord),
    (i + k)%nat = length coordinates → length pat = length coordinates →
    foldM (seq i k) (λ idx pattern,
        entry ← elem coordinates idx;
        let xy := Split entry "," in
        xy0 ← elem xy 0;
        x ← atoi_or_exit xy0;
        xy1 ← elem xy 1;
        y ← atoi_or_exit xy1;
        ret (<[idx := mkCoord x y]> pattern))%go pat s
    = match flag_entries (drop i coordinates) with
      | (Ok cs, _) => (Ok (take i pat ++ cs), s)
      | (Exit code, ls) => (Exit code, emit ls s)
      | (Panic msg, _) => (Panic msg, s)
      end.
Proof.
  induction k as [|k IH]; intros i pat Hik Hlen; cbn [seq foldM].
  - rewrite drop_ge by lia. simpl. unfold ret.
    by rewrite take_ge, app_nil_r by lia.
  - destruct (lookup_lt_is_Some_2 coordinates i) as [entry Hentry]; [lia|].
    rewrite (drop_S _ _ _ Hentry). cbn [flag_entries].
    pose proof (flag_entry_body coordinates i entry pat s Hentry) as Hbody.
    cbv zeta in Hbody. unfold bind at 1. rewrite Hbody.
    destruct (flag_entry entry) as [[c|code|msg] ls]; [|done..].
    rewrite IH by (rewrite ?length_insert; lia).
    destruct (flag_entries (drop (S i) coordinates)) as [[cs|code|msg] ls']; [|done..].
    do 2 f_equal.
    rewrite (take_S_r _ _ c) by (apply list_lookup_insert_eq; lia).
    rewrite take_insert_ge by lia. by rewrite <- app_assoc.
Qed.

Lemma handleCommandLine_run ticks size coordinatesOpt s :
  Staged.handleCommandLine ticks size coordinatesOpt s
  = match flag_entries (Split coordinatesOpt ";") with
    | (Ok cs, _) => (Ok (ticks, size, cs), s)
    | (Exit code, ls) => (Exit code, emit ls s)
    | (Panic msg, _) => (Panic msg, s)
    end.
Proof.
  unfold Staged.handleCommandLine. cbv zeta. unfold bind at 1.
  rewrite (flag_fold_run (Split coordinatesOpt ";") s _ 0%nat)
    by (rewrite ?length_replicate; lia).
  rewrite drop_0. by destruct (flag_entries _) as [[cs|code|msg] ls].
Qed.

(** *** Which entries are rejected *)

Lemma read_entry_inr pattern xy l :
  read_entry pattern xy = inr l → bad_entry xy ∧ reports pattern xy l.
Proof.
  unfold read_entry, bad_entry, reports, leading_field.
  destruct (Split xy ",") as [|c0 [|c1 rest]]; simpl.
  - intros [= <-]. split; [left; lia|by left].
  - intros [= <-]. split; [left; lia|by left].
  - destruct (Atoi c0) as [x0|e0] eqn:H0.
    + destruct (Atoi c1) as [y0|e1] eqn:H1; [done|]. intros [= <-].
      pose proof (Atoi_error _ _ H1) as ->.
      split; right; [exists c1; eauto|exists c1; eauto].
    + intros [= <-]. pose proof (Atoi_error _ _ H0) as ->.
      split; right; [exists c0; eauto|exists c0; eauto].
Qed.

Lemma read_entry_inl pattern xy c : read_entry pattern xy = inl c → ¬ bad_entry xy.
Proof.
  unfold read_entry, bad_entry, leading_field.
  destruct (Split xy ",") as [|c0 [|c1 rest]]; simpl; [done..|].
  destruct (Atoi c0) as [x0|e0] eqn:H0; [|done].
  destruct (Atoi c1) as [y0|e1] eqn:H1; [|done].
  intros _ [?|(t & e & [[= <-]|[= <-]] & He)]; [lia|congruence..].
Qed.

Lemma read_entries_bad pattern entries :
  Exists bad_entry entries →
  ∃ cs xy l, read_entries pattern entries = (cs, Some l)
             ∧ xy ∈ entries ∧ bad_entry xy ∧ reports pattern xy l.
Proof.
  induction entries as [|xy rest IH]; intros Hex; [by apply Exists_nil in Hex|].
  cbn [read_entries]. destruct (read_entry pattern xy) as [c|l] eqn:Hxy.
  - apply Exists_cons in Hex as [Hbad|Hex]; [by apply read_entry_inl in Hxy|].
    destruct (IH Hex) as (cs & xy' & l & -> & Hin & Hbad & Hrep).
    exists (c :: cs), xy', l. split; [done|]. split; [by right|done].
  - apply read_entry_inr in Hxy as [Hbad Hrep].
    exists [], xy, l. split; [done|]. split; [left|done].
Qed.

Lemma read_entries_good pattern entries :
  Forall (λ xy, ¬ bad_entry xy) entries →
  ∃ cs, read_entries pattern entries = (cs, None)
        ∧ Forall2 (λ xy c, read_entry pattern xy = inl c) entries cs.
Proof.
  induction 1 as [|xy rest Hgood _ IH]; [by exists []|].
  cbn [read_entries]. destruct (read_entry pattern xy) as [c|l] eqn:Hxy.
  - destruct IH as (cs & -> & Hall). exists (c :: cs). split; [done|by constructor].
  - by apply read_entry_inr in Hxy as [Hbad _].
Qed.

(** With at least two fields in every entry the two parsers agree. *)
Lemma flag_entry_read pattern entry :
  (2 ≤ length (Split entry ","))%nat →
  flag_entry entry
  = match read_entry pattern entry with
    | inl c => (Ok c, [])
    | inr l => (Exit 1, [l])
    end.
Proof.
  unfold flag_entry, read_entry.
  destruct (Split entry ",") as [|c0 [|c1 rest]]; simpl; [lia..|]. intros _.
  destruct (Atoi c0); [|done]. by destruct (Atoi c1).
Qed.

Lemma flag_entries_read pattern entries :
  Forall (λ entry, (2 ≤ length (Split entry ","))%nat) entries →
  flag_entries entries
  = match read_entries pattern entries with
    | (cs, None) => (Ok cs, [])
    | (_, Some l) => (Exit 1, [l])
    end.
Proof.
  induction 1 as [|entry rest Hlen _ IH]; [done|].
  cbn [flag_entries read_entries]. rewrite (flag_entry_read pattern) by done.
  destruct (read_entry pattern entry) as [c|l]; [|done].
  rewrite IH. by destruct (read_entries pattern rest) as [cs [l|]].
Qed.

(** ** The three programs, whole *)

Lemma Staged_Tick_step world s w :
  fair s → heap s !! world = Some w →
  ∃ r s', Staged.Tick world s = (Ok r, s') ∧ heap s' !! r = Some (tick w)
          ∧ sched s' = sched s ∧ stdout s' = stdout s.
Proof.
  intros Hfair Hw.
  destruct (Staged_Tick_result world s w) as (r & s' & Hrun & Hr & ->); [done..|].
  by exists r, (grow [inflate w; counted (inflate w); ruled (counted (inflate w)); tick w] 4 s).
Qed.

Lemma Single_generation_step world s w :
  fair s → heap s !! world = Some w →
  ∃ r s', Single.generation world s = (Ok r, s') ∧ heap s' !! r = Some (tick w)
          ∧ sched s' = sched s ∧ stdout s' = stdout s.
Proof.
  intros Hfair Hw.
  destruct (Single_generation_result world s w) as (r & s' & Hrun & Hr & ->); [done..|].
  by exists r, (grow [counted (inflate w); ruled (counted (inflate w)); tick w] 4 s).
Qed.

Lemma plots_first cmd w ks blocks :
  lists ks w → plots cmd w 1 blocks → plots cmd w 0 (plot_block cmd ks :: blocks).
Proof.
  intros Hks Hplots. unfold plots. simpl. constructor; [|done]. by exists ks.
Qed.

Lemma forM_assign world (cs : list Coord) s w :
  heap s !! world = Some w →
  forM cs (λ coord, assign world coord (mkCell true 0)) s
  = (Ok tt, put world (foldl (λ w' c, <[c := mkCell true 0]> w') w cs) s).
Proof.
  intros Hw.
  apply (forM_put world (λ c w', <[c := mkCell true 0]> w') _ (λ _, True)); try done.
  intros c s' w' _ _ Hw'. by apply assign_run.
Qed.

(** The tail shared by [gol] and by [main] of [src/gol.go]: print the table,
    then the loop. *)
Lemma show_then_loop (step : ref → M ref) (show : ref → M unit) (cmd : string)
    (k : nat) world s w :
  (∀ world s w, fair s → heap s !! world = Some w →
     ∃ r s', step world s = (Ok r, s') ∧ heap s' !! r = Some (tick w)
             ∧ sched s' = sched s ∧ stdout s' = stdout s) →
  (∀ world s w, fair s → heap s !! world = Some w →
     show world s = (Ok tt, emit (plot_block cmd (sched s (loops s) w)) (started s))) →
  fair s → heap s !! world = Some w →
  ∃ s', (show world;;
         _ ← repeatM k (λ world, world' ← step world; show world';; ret world')%go world;
         ret tt)%go s = (Ok tt, s')
        ∧ prints (stdout s') (stdout s) cmd w 0 (S k).
Proof.
  intros Hstep Hshow Hfair Hw.
  destruct (print_loop_run step show cmd Hstep Hshow k world
              (emit (plot_block cmd (sched s (loops s) w)) (started s)) w)
    as (r & s' & blocks & Hrun & Hout & Hlen & Hplots); [done..|].
  exists s'. split.
  - erewrite bind_ok; [|by apply Hshow]. by erewrite bind_ok.
  - exists (plot_block cmd (sched s (loops s) w) :: blocks). split; [|split].
    + rewrite Hout. simpl. by rewrite <- app_assoc.
    + simpl. by rewrite Hlen.
    + apply plots_first; [apply Hfair|done].
Qed.

Lemma Single_gnuplotHeader_run s : Single.gnuplotHeader s = (Ok tt, emit header_50 s).
Proof.
  unfold Single.gnuplotHeader. erewrite bind_ok; [|apply println_run].
  rewrite println_run. by rewrite emit_emit.
Qed.

Lemma Single_main_run s :
  fair s →
  ∃ s', Single.main s = (Ok tt, s')
        ∧ prints (stdout s') (stdout s ++ header_50)
                 "plot '-' with points pointtype 6" pentomino 0 1001.
Proof.
  intros Hfair. unfold Single.main.
  bind_step ltac:(reflexivity).
  pose (s0 := set_heap (heap s ++ [∅]) s).
  assert (heap s0 !! length (heap s) = Some ∅) as H0 by apply heap_fresh.
  bind_step ltac:(apply assign_run; exact H0).
  do 4 (erewrite bind_ok; [|apply assign_run; eapply heap_put_Some; exact H0];
        rewrite put_put).
  bind_step ltac:(apply Single_gnuplotHeader_run).
  destruct (show_then_loop Single.generation Single.gnuplotWorld
              "plot '-' with points pointtype 6" (Z.to_nat 1000) (length (heap s))
              (emit header_50 (put (length (heap s)) pentomino s0)) pentomino)
    as (s' & Hrun & Hprints).
  - apply Single_generation_step.
  - apply Single_gnuplotWorld_run.
  - done.
  - eapply heap_put_Some. exact H0.
  - exists s'. split; [exact Hrun|]. exact Hprints.
Qed.

Lemma world_of_fold cs : foldl (λ w' c, <[c := live]> w') ∅ cs = world_of cs.
Proof. done. Qed.

(** [gol] on a pattern every entry of which is accepted. *)
Lemma Cobra_gol_run d pattern ticks s :
  fair s → Forall (λ xy, ¬ bad_entry xy) (Split pattern ";") →
  ∃ s' cs, Cobra.gol d pattern ticks s = (Ok tt, s')
           ∧ Forall2 (λ xy c, read_entry pattern xy = inl c) (Split pattern ";") cs
           ∧ prints (stdout s') (stdout s ++ header_lines d)
                    "plot '-' with points ls 1" (world_of cs) 0 (S (Z.to_nat ticks)).
Proof.
  intros Hfair Hgood.
  destruct (read_entries_good pattern _ Hgood) as (cs & Hread & Hcs).
  pose (s0 := set_heap (heap s ++ [∅]) s).
  assert (heap s0 !! length (heap s) = Some ∅) as H0 by apply heap_fresh.
  destruct (show_then_loop Cobra.generation gnuplotWorld
              "plot '-' with points ls 1" (Z.to_nat ticks) (length (heap s))
              (emit (header_lines d) (put (length (heap s)) (world_of cs) s0)) (world_of cs))
    as (s' & Hrun & Hprints).
  - apply Single_generation_step.
  - apply gnuplotWorld_run.
  - done.
  - eapply heap_put_Some. exact H0.
  - exists s', cs. split; [|done]. unfold Cobra.gol. subst s0.
    bind_step ltac:(reflexivity).
    erewrite bind_ok.
    2:{ rewrite (readPattern_run pattern _ _ ∅ H0), Hread. by rewrite world_of_fold. }
    bind_step ltac:(apply gnuplotHeader_run).
    exact Hrun.
Qed.

(** [gol] on a pattern with a rejected entry. *)
Lemma Cobra_gol_exit d pattern ticks s :
  Exists bad_entry (Split pattern ";") →
  ∃ s' xy l, Cobra.gol d pattern ticks s = (Exit 1, s')
             ∧ stdout s' = stdout s ++ [l]
             ∧ xy ∈ Split pattern ";" ∧ bad_entry xy ∧ reports pattern xy l.
Proof.
  intros Hbad.
  destruct (read_entries_bad pattern _ Hbad) as (cs & xy & l & Hread & Hin & Hxy & Hrep).
  pose (s0 := set_heap (heap s ++ [∅]) s).
  assert (heap s0 !! length (heap s) = Some ∅) as H0 by apply heap_fresh.
  exists (emit [l] (put (length (heap s)) (world_of cs) s0)), xy, l.
  split; [|done]. unfold Cobra.gol. subst s0.
  bind_step ltac:(reflexivity).
  erewrite bind_exit; [done|].
  by rewrite (readPattern_run pattern _ _ ∅ H0), Hread.
Qed.

(** [main] of the flag version on a pattern every entry of which is
    accepted. *)
Lemma Staged_main_run ticks size pattern s :
  fair s → Forall (λ xy, ¬ bad_entry xy) (Split pattern ";") →
  ∃ s' cs, Staged.main ticks size pattern s = (Ok tt, s')
           ∧ Forall2 (λ xy c, read_entry pattern xy = inl c) (Split pattern ";") cs
           ∧ prints (stdout s') (stdout s ++ header_lines size)
                    "plot '-' with points ls 1" (world_of cs) 1 (Z.to_nat ticks).
Proof.
  intros Hfair Hgood.
  destruct (read_entries_good pattern _ Hgood) as (cs & Hread & Hcs).
  assert (flag_entries (Split pattern ";") = (Ok cs, [])) as Hflag.
  { rewrite (flag_entries_read pattern), Hread; [done|].
    eapply Forall_impl; [exact Hgood|]. intros xy Hxy. unfold bad_entry in Hxy.
    destruct (decide (2 ≤ length (Split xy ","))%nat); [done|].
    exfalso. apply Hxy. left. lia. }
  pose (s0 := set_heap (heap s ++ [∅]) s).
  assert (heap s0 !! length (heap s) = Some ∅) as H0 by apply heap_fresh.
  destruct (print_loop_run Staged.Tick gnuplotWorld "plot '-' with points ls 1"
              Staged_Tick_step gnuplotWorld_run (Z.to_nat ticks) (length (heap s))
              (emit (header_lines size) (put (length (heap s)) (world_of cs) s0))
              (world_of cs))
    as (r & s' & blocks & Hrun & Hout & Hlen & Hplots).
  - done.
  - eapply heap_put_Some. exact H0.
  - exists s', cs. split; [|split; [done|]].
    + unfold Staged.main. subst s0.
      bind_step ltac:(by rewrite handleCommandLine_run, Hflag).
      cbv beta iota.
      bind_step ltac:(reflexivity).
      bind_step ltac:(by apply (forM_assign _ cs _ ∅)).
      bind_step ltac:(apply gnuplotHeader_run).
      by erewrite bind_ok.
    + exists blocks. split; [|done]. rewrite Hout. simpl. by rewrite <- app_assoc.
Qed.


(** ** Known patterns *)

Example blinker_turns : tick blinker = column.
Proof. by vm_compute. Qed.

Example column_turns_back : tick column = blinker.
Proof. by vm_compute. Qed.

Example square_still : tick square = square.
Proof. by vm_compute. Qed.

Example pentomino_grows :
  size (tick pentomino) = 6%nat ∧ size (Nat.iter 3 tick pentomino) = 9%nat.
Proof. by vm_compute. Qed.

(** * The specification, claim by claim *)

Lemma fair_boot h : fair (boot h).
Proof. by intros k w. Qed.



(** C2. The staged pipeline Inflate, CountLiveNeighbours, ApplyRules, Deflate
    and the pipeline Inflate, in-place Tick, Deflate of the single-file
    program compute the same function from World to World: started on the
    same table, in any two states and under any two fair schedulers, both
    end well and return tables with the same content. *)
Theorem staged_matches_single (s1 s2 : State) (m1 m2 : ref) (w : World) :
  fair s1 → fair s2 → heap s1 !! m1 = Some w → heap s2 !! m2 = Some w →
  returns (Staged.Tick m1) s1 (λ r1 s1',
    returns (Single.generation m2) s2 (λ r2 s2',
      ∃ w', heap s1' !! r1 = Some w' ∧ heap s2' !! r2 = Some w')).
Proof.
  intros Hf1 Hf2 Hw1 Hw2.
  destruct (Staged_Tick_result m1 s1 w) as (r1 & s1' & Hrun1 & Hr1 & _); [done..|].
  destruct (Single_generation_result m2 s2 w) as (r2 & s2' & Hrun2 & Hr2 & _); [done..|].
  exists r1, s1'. split; [done|]. exists r2, s2'. split; [done|]. by exists (tick w).
Qed.

Lemma staged_matches_single_witness :
  returns (Staged.Tick 0%nat) (boot [pentomino]) (λ r1 s1',
    returns (Single.generation 1%nat) (boot [blinker; pentomino]) (λ r2 s2',
      ∃ w', heap s1' !! r1 = Some w' ∧ heap s2' !! r2 = Some w')).
Proof.
  apply (staged_matches_single (boot [pentomino]) (boot [blinker; pentomino])
           0%nat 1%nat pentomino).
  - intros k w. reflexivity.
  - intros k w. reflexivity.
  - reflexivity.
  - reflexivity.
Defined.

(** C3. Every entry of the table [Tick] returns has [alive = true] and
    [n = 0]: no dead entry survives a tick and the counter is reset.  It
    holds of the staged [Tick] and of [world.Inflate().Tick().Deflate()]. *)
Theorem Tick_result_sparse (s : State) (world : ref) (w : World) :
  fair s → heap s !! world = Some w →
  returns (Staged.Tick world) s (λ r s',
    ∀ c cell, world_at s' r !! c = Some cell → alive cell = true ∧ n cell = 0)
  ∧ returns (Single.generation world) s (λ r s',
    ∀ c cell, world_at s' r !! c = Some cell → alive cell = true ∧ n cell = 0).
Proof.
  intros Hfair Hw. split.
  - destruct (Staged_Tick_result world s w) as (r & s' & Hrun & Hr & _); [done..|].
    exists r, s'. split; [done|]. rewrite (world_at_Some _ _ _ Hr).
    by intros c cell ->%tick_live.
  - destruct (Single_generation_result world s w) as (r & s' & Hrun & Hr & _); [done..|].
    exists r, s'. split; [done|]. rewrite (world_at_Some _ _ _ Hr).
    by intros c cell ->%tick_live.
Qed.

Lemma Tick_result_sparse_witness :
  returns (Staged.Tick 0%nat) (boot [blinker]) (λ r s',
    ∀ c cell, world_at s' r !! c = Some cell → alive cell = true ∧ n cell = 0)
  ∧ returns (Single.generation 0%nat) (boot [blinker]) (λ r s',
    ∀ c cell, world_at s' r !! c = Some cell → alive cell = true ∧ n cell = 0).
Proof.
  apply (Tick_result_sparse (boot [blinker]) 0%nat blinker).
  - intros k w. reflexivity.
  - reflexivity.
Defined.

Lemma is_coord_small a b : -100 ≤ a ≤ 100 → -100 ≤ b ≤ 100 → is_coord (mkCoord a b).
Proof. unfold is_coord, is_int, int_min, int_max. simpl. lia. Qed.

Lemma coords_row3 : coords row3.
Proof.
  intros c Hc. apply elem_of_list_to_set in Hc.
  repeat (apply elem_of_cons in Hc as [->|Hc]); [..|by apply elem_of_nil in Hc];
    apply is_coord_small; lia.
Qed.

(** C4. Translation: for every finite set [S] of live coordinates of the
    grid, every offset [(dx, dy)] and every number [N] of ticks, [N] ticks on
    [S] translated give exactly the translation of what [N] ticks give on
    [S].  Translation adds the offset in [int] arithmetic, as the program
    adds its own offsets. *)
Theorem Tick_translation (s1 s2 : State) (m1 m2 : ref) (S : gset Coord)
    (dx dy : Z) (N : nat) :
  fair s1 → fair s2 → coords S →
  heap s1 !! m1 = Some (live_world (shift dx dy S)) →
  heap s2 !! m2 = Some (live_world S) →
  returns (repeatM N Staged.Tick m1) s1 (λ r1 s1',
    returns (repeatM N Staged.Tick m2) s2 (λ r2 s2',
      ∃ T, heap s2' !! r2 = Some (live_world T)
           ∧ heap s1' !! r1 = Some (live_world (shift dx dy T)))).
Proof.
  intros Hf1 Hf2 HS Hm1 Hm2.
  destruct (repeat_Tick_run N m1 s1 _ Hf1 Hm1) as (r1 & s1' & Hrun1 & Hr1 & _).
  destruct (repeat_Tick_run N m2 s2 _ Hf2 Hm2) as (r2 & s2' & Hrun2 & Hr2 & _).
  exists r1, s1'. split; [done|]. exists r2, s2'. split; [done|].
  exists (Nat.iter N next S). split.
  - by rewrite Hr2, iter_tick_live_world.
  - by rewrite Hr1, iter_tick_live_world, iter_next_shift.
Qed.

Lemma Tick_translation_witness :
  returns (repeatM 2 Staged.Tick 0%nat) (boot [live_world (shift 5 (-3) row3)])
    (λ r1 s1',
      returns (repeatM 2 Staged.Tick 0%nat) (boot [live_world row3]) (λ r2 s2',
        ∃ T, heap s2' !! r2 = Some (live_world T)
             ∧ heap s1' !! r1 = Some (live_world (shift 5 (-3) T)))).
Proof.
  apply (Tick_translation (boot [live_world (shift 5 (-3) row3)]) (boot [live_world row3])
           0%nat 0%nat row3 5 (-3) 2).
  - intros k w. reflexivity.
  - intros k w. reflexivity.
  - apply coords_row3.
  - reflexivity.
  - reflexivity.
Defined.

Lemma pentomino_four : Nat.iter 4 tick pentomino = pentomino4.
Proof. by vm_compute. Qed.

Lemma pentomino4_no_translate dx dy :
  pentomino4 ≠ live_world (shift dx dy (dom pentomino)).
Proof.
  intros Heq. apply (f_equal (λ w : World, size (dom w))) in Heq.
  rewrite dom_live_world in Heq.
  pose proof (size_shift dx dy (dom pentomino)) as Hle.
  rewrite <- Heq in Hle. revert Hle.
  change (size (dom pentomino4)) with 8%nat.
  change (size (dom pentomino)) with 5%nat. lia.
Qed.

(** C5, as the program behaves.  The five cells (1,0), (0,1), (1,1), (1,2),
    (2,2) are the r-pentomino, as the sources name it, not a glider: four
    ticks turn them into the eight cells (-1,1), (-1,2), (0,0), (0,3),
    (1,0), (2,1), (2,2), (2,3), which no offset maps the five cells onto. *)
Theorem pentomino_after_four (s : State) (m : ref) :
  fair s → heap s !! m = Some pentomino →
  returns (repeatM 4 Staged.Tick m) s (λ r s',
    heap s' !! r = Some pentomino4
    ∧ ∀ dx dy, heap s' !! r ≠ Some (live_world (shift dx dy (dom pentomino)))).
Proof.
  intros Hfair Hm.
  destruct (repeat_Tick_run 4 m s _ Hfair Hm) as (r & s' & Hrun & Hr & _).
  exists r, s'. split; [done|]. rewrite Hr, pentomino_four. split; [reflexivity|].
  intros dx dy Heq. apply (pentomino4_no_translate dx dy). congruence.
Qed.

Lemma pentomino_after_four_witness :
  returns (repeatM 4 Staged.Tick 0%nat) (boot [pentomino]) (λ r s',
    heap s' !! r = Some pentomino4
    ∧ ∀ dx dy, heap s' !! r ≠ Some (live_world (shift dx dy (dom pentomino)))).
Proof.
  apply (pentomino_after_four (boot [pentomino]) 0%nat).
  - intros k w. reflexivity.
  - reflexivity.
Defined.

(** C5 as stated fails: four ticks on the five cells do not give the five
    cells translated by (+1,+1), nor by any other offset. *)
Lemma pentomino_is_no_glider :
  ¬ ∃ dx dy,
      returns (repeatM 4 Staged.Tick 0%nat) (boot [pentomino]) (λ r s',
        heap s' !! r = Some (live_world (shift dx dy (dom pentomino)))).
Proof.
  intros (dx & dy & r & s' & Hrun & Hr).
  destruct (repeat_Tick_run 4 0%nat (boot [pentomino]) pentomino (fair_boot _) eq_refl)
    as (r0 & s0 & Hrun0 & Hr0 & _).
  rewrite Hrun in Hrun0. injection Hrun0 as <- <-.
  rewrite Hr0, pentomino_four in Hr.
  apply (pentomino4_no_translate dx dy). congruence.
Qed.

(** C6, as the program behaves.  [Inflate], [Deflate], [CountLiveNeighbours],
    [ApplyRules], the staged [Tick] and the expression
    [world.Inflate().Tick().Deflate()] return a table that did not exist
    before and leave every existing table, their receiver included, and the
    output as they were.  The [Tick] of the single-file program also returns
    a new table, but writes the counts into its receiver: afterwards the
    receiver holds, at each of its keys, the same [alive] flag and the number
    of live neighbours; every other table is as it was. *)
Theorem stages_frame (s : State) (world : ref) (w : World) :
  fair s → heap s !! world = Some w →
  framed (Inflate world) s
  ∧ framed (Deflate world) s
  ∧ framed (Staged.CountLiveNeighbours world) s
  ∧ framed (Staged.ApplyRules world) s
  ∧ framed (Staged.Tick world) s
  ∧ framed (Single.generation world) s
  ∧ returns (Single.Tick world) s (λ r s',
      heap s !! r = None ∧ is_Some (heap s' !! r)
      ∧ heap s' !! world = Some (counted w)
      ∧ (∀ m v, m ≠ world → heap s !! m = Some v → heap s' !! m = Some v)
      ∧ stdout s' = stdout s).
Proof.
  intros Hfair Hw. repeat split.
  - eapply framed_alloc. by apply Inflate_run.
  - eapply framed_alloc. by apply Deflate_run.
  - eapply framed_alloc. by apply CountLiveNeighbours_run.
  - eapply framed_alloc. by apply ApplyRules_run.
  - destruct (Staged_Tick_result world s w) as (r & s' & Hrun & Hr & ->); [done..|].
    eapply framed_grow; [done..|].
    assert (Hsame := Staged_Tick_run world s w Hfair Hw).
    rewrite Hrun in Hsame. injection Hsame as ->. lia.
  - destruct (Single_generation_result world s w) as (r & s' & Hrun & Hr & ->); [done..|].
    eapply framed_grow; [done..|].
    assert (Hsame := Single_generation_run world s w Hfair Hw).
    rewrite Hrun in Hsame. injection Hsame as ->. lia.
  - destruct (Single_Tick_result world s w) as (r & s' & Hrun & Hr & Hworld & ->); [done..|].
    exists (length (heap s)), s'. split; [done|].
    split; [by apply lookup_ge_None|]. split; [by eexists|]. split; [done|].
    assert (Hsame := Single_Tick_run world s w Hfair Hw).
    rewrite Hrun in Hsame. injection Hsame as ->. split; [|done].
    intros m v Hne Hm. simpl. apply lookup_app_l_Some.
    by rewrite list_lookup_insert_ne.
Qed.

Lemma stages_frame_witness :
  framed (Inflate 0%nat) (boot [blinker])
  ∧ framed (Deflate 0%nat) (boot [blinker])
  ∧ framed (Staged.CountLiveNeighbours 0%nat) (boot [blinker])
  ∧ framed (Staged.ApplyRules 0%nat) (boot [blinker])
  ∧ framed (Staged.Tick 0%nat) (boot [blinker])
  ∧ framed (Single.generation 0%nat) (boot [blinker])
  ∧ returns (Single.Tick 0%nat) (boot [blinker]) (λ r s',
      heap (boot [blinker]) !! r = None ∧ is_Some (heap s' !! r)
      ∧ heap s' !! 0%nat = Some (counted blinker)
      ∧ (∀ m v, m ≠ 0%nat → heap (boot [blinker]) !! m = Some v → heap s' !! m = Some v)
      ∧ stdout s' = stdout (boot [blinker])).
Proof.
  apply (stages_frame (boot [blinker]) 0%nat blinker).
  - intros k w. reflexivity.
  - reflexivity.
Defined.

(** C6 as stated fails on the [Tick] of [src/gol.go]: called on the blinker
    it does not leave its receiver as it was. *)
Lemma Single_Tick_overwrites_receiver : ¬ framed (Single.Tick 0%nat) (boot [blinker]).
Proof.
  intros (r & s' & Hrun & _ & _ & Hold & _).
  specialize (Hold 0%nat blinker eq_refl).
  destruct (Single_Tick_result 0%nat (boot [blinker]) blinker (fair_boot _) eq_refl)
    as (r0 & s0 & Hrun0 & _ & Hworld & _).
  rewrite Hrun in Hrun0. injection Hrun0 as <- <-.
  assert (Some blinker = Some (counted blinker)) as Heq
      by (rewrite <- Hold; exact Hworld).
  apply (f_equal (λ o : option World, o ≫= (.!! mkCoord 0 0))) in Heq.
  by vm_compute in Heq.
Qed.

Lemma blinker_pattern_good : Forall (λ xy, ¬ bad_entry xy) (Split "0,0;1,0;2,0" ";").
Proof.
  change (Split "0,0;1,0;2,0" ";") with ["0,0"; "1,0"; "2,0"]%string.
  repeat constructor.
  - by apply (read_entry_inl "" _ (mkCoord 0 0)).
  - by apply (read_entry_inl "" _ (mkCoord 1 0)).
  - by apply (read_entry_inl "" _ (mkCoord 2 0)).
Qed.

(** C7, as the programs behave.  On a pattern whose entries are all accepted,
    the single-file program and the cobra version print, after the header,
    one plot block per generation from generation 0 on: [N + 1] blocks for [N]
    ticks, block [k] listing the keys of generation [k], the first block the
    starting pattern.  The flag version prints [N] blocks, for generations 1
    to [N]: it prints no block for the starting pattern. *)
Theorem generations_printed (s : State) (d ticks : Z) (pattern : string) :
  fair s → Forall (λ xy, ¬ bad_entry xy) (Split pattern ";") →
  (∃ s', Single.main s = (Ok tt, s')
         ∧ prints (stdout s') (stdout s ++ header_50)
                  "plot '-' with points pointtype 6" pentomino 0 1001)
  ∧ (∃ s' cs, Cobra.gol d pattern ticks s = (Ok tt, s')
              ∧ Forall2 (λ xy c, read_entry pattern xy = inl c) (Split pattern ";") cs
              ∧ prints (stdout s') (stdout s ++ header_lines d)
                       "plot '-' with points ls 1" (world_of cs) 0 (S (Z.to_nat ticks)))
  ∧ (∃ s' cs, Staged.main ticks d pattern s = (Ok tt, s')
              ∧ Forall2 (λ xy c, read_entry pattern xy = inl c) (Split pattern ";") cs
              ∧ prints (stdout s') (stdout s ++ header_lines d)
                       "plot '-' with points ls 1" (world_of cs) 1 (Z.to_nat ticks)).
Proof.
  intros Hfair Hgood. split; [|split].
  - by apply Single_main_run.
  - by apply Cobra_gol_run.
  - by apply Staged_main_run.
Qed.

Lemma generations_printed_witness :
  (∃ s', Single.main (boot []) = (Ok tt, s')
         ∧ prints (stdout s') (stdout (boot []) ++ header_50)
                  "plot '-' with points pointtype 6" pentomino 0 1001)
  ∧ (∃ s' cs, Cobra.gol 50 "0,0;1,0;2,0" 2 (boot []) = (Ok tt, s')
              ∧ Forall2 (λ xy c, read_entry "0,0;1,0;2,0" xy = inl c)
                        (Split "0,0;1,0;2,0" ";") cs
              ∧ prints (stdout s') (stdout (boot []) ++ header_lines 50)
                       "plot '-' with points ls 1" (world_of cs) 0 (S (Z.to_nat 2)))
  ∧ (∃ s' cs, Staged.main 2 50 "0,0;1,0;2,0" (boot []) = (Ok tt, s')
              ∧ Forall2 (λ xy c, read_entry "0,0;1,0;2,0" xy = inl c)
                        (Split "0,0;1,0;2,0" ";") cs
              ∧ prints (stdout s') (stdout (boot []) ++ header_lines 50)
                       "plot '-' with points ls 1" (world_of cs) 1 (Z.to_nat 2)).
Proof.
  apply (generations_printed (boot []) 50 2 "0,0;1,0;2,0").
  - intros k w. reflexivity.
  - apply blinker_pattern_good.
Defined.

(** C7 as stated fails on the flag version: one tick on the blinker prints
    one block, not two, and it lists the column the row turns into, not the
    row the run starts from. *)
Lemma flag_main_skips_generation_0 :
  ∃ s', Staged.main 1 50 "0,0;1,0;2,0" (boot []) = (Ok tt, s')
        ∧ stdout s'
          = header_lines 50
            ++ plot_block "plot '-' with points ls 1"
                          [mkCoord 1 (-1); mkCoord 1 0; mkCoord 1 1].
Proof. eexists. split; by vm_compute. Qed.




(** The flag version has no guard on the number of fields: on an entry with
    one field, an integer, it reads the field and then panics on [xy[1]],
    printing nothing of its own. *)
Lemma flag_single_field_panics :
  ∃ s', Staged.main 1 50 "5" (boot []) = (Panic "index out of range", s')
        ∧ stdout s' = [].
Proof. eexists. split; by vm_compute. Qed.

(** C9. [Tick] is total: on every table it ends well, without exit or panic,
    and returns a table.  On the empty table it returns the empty table, and
    so does any number of ticks in a row. *)
Theorem Tick_total_empty (s : State) (world : ref) (w : World) (k : nat) :
  fair s → heap s !! world = Some w →
  returns (Staged.Tick world) s (λ r s',
    is_Some (heap s' !! r) ∧ (w = ∅ → heap s' !! r = Some ∅))
  ∧ returns (Single.generation world) s (λ r s',
    is_Some (heap s' !! r) ∧ (w = ∅ → heap s' !! r = Some ∅))
  ∧ (w = ∅ → returns (repeatM k Staged.Tick world) s (λ r s', heap s' !! r = Some ∅)).
Proof.
  intros Hfair Hw. split; [|split].
  - destruct (Staged_Tick_result world s w) as (r & s' & Hrun & Hr & _); [done..|].
    exists r, s'. split; [done|]. split; [by eexists|].
    intros ->. by rewrite Hr, tick_empty.
  - destruct (Single_generation_result world s w) as (r & s' & Hrun & Hr & _); [done..|].
    exists r, s'. split; [done|]. split; [by eexists|].
    intros ->. by rewrite Hr, tick_empty.
  - intros ->.
    destruct (repeat_Tick_run k world s ∅) as (r & s' & Hrun & Hr & _); [done..|].
    exists r, s'. split; [done|]. by rewrite Hr, iter_tick_empty.
Qed.

Lemma Tick_total_empty_witness :
  returns (Staged.Tick 0%nat) (boot [∅]) (λ r s',
    is_Some (heap s' !! r) ∧ ((∅ : World) = ∅ → heap s' !! r = Some ∅))
  ∧ returns (Single.generation 0%nat) (boot [∅]) (λ r s',
    is_Some (heap s' !! r) ∧ ((∅ : World) = ∅ → heap s' !! r = Some ∅))
  ∧ ((∅ : World) = ∅ →
     returns (repeatM 3 Staged.Tick 0%nat) (boot [∅]) (λ r s', heap s' !! r = Some ∅)).
Proof.
  apply (Tick_total_empty (boot [∅]) 0%nat ∅ 3).
  - intros k w. reflexivity.
  - reflexivity.
Defined.

(** C10. [Tick] never reads the counter of its input: on two tables with the
    same keys and the same [alive] flag at every key, whatever their
    counters, it returns tables with the same content.  It holds of the
    staged [Tick] and of the in-place [Tick] of the single-file program. *)
Theorem Tick_ignores_counters (s1 s2 : State) (m1 m2 : ref) (w1 w2 : World) :
  fair s1 → fair s2 → heap s1 !! m1 = Some w1 → heap s2 !! m2 = Some w2 →
  same_life w1 w2 →
  returns (Staged.Tick m1) s1 (λ r1 s1',
    returns (Staged.Tick m2) s2 (λ r2 s2',
      ∃ w', heap s1' !! r1 = Some w' ∧ heap s2' !! r2 = Some w'))
  ∧ returns (Single.Tick m1) s1 (λ r1 s1',
    returns (Single.Tick m2) s2 (λ r2 s2',
      ∃ w', heap s1' !! r1 = Some w' ∧ heap s2' !! r2 = Some w')).
Proof.
  intros Hf1 Hf2 Hw1 Hw2 Hsame. split.
  - destruct (Staged_Tick_result m1 s1 w1) as (r1 & s1' & Hrun1 & Hr1 & _); [done..|].
    destruct (Staged_Tick_result m2 s2 w2) as (r2 & s2' & Hrun2 & Hr2 & _); [done..|].
    exists r1, s1'. split; [done|]. exists r2, s2'. split; [done|].
    exists (tick w1). by rewrite Hr2, (same_life_tick w1 w2).
  - destruct (Single_Tick_result m1 s1 w1) as (r1 & s1' & Hrun1 & Hr1 & _); [done..|].
    destruct (Single_Tick_result m2 s2 w2) as (r2 & s2' & Hrun2 & Hr2 & _); [done..|].
    exists r1, s1'. split; [done|]. exists r2, s2'. split; [done|].
    exists (ruled (counted w1)). by rewrite Hr2, (same_life_counted_eq w1 w2).
Qed.

Lemma Tick_ignores_counters_witness :
  returns (Staged.Tick 0%nat) (boot [blinker]) (λ r1 s1',
    returns (Staged.Tick 0%nat) (boot [(λ cell, mkCell (alive cell) 7) <$> blinker])
      (λ r2 s2', ∃ w', heap s1' !! r1 = Some w' ∧ heap s2' !! r2 = Some w'))
  ∧ returns (Single.Tick 0%nat) (boot [blinker]) (λ r1 s1',
    returns (Single.Tick 0%nat) (boot [(λ cell, mkCell (alive cell) 7) <$> blinker])
      (λ r2 s2', ∃ w', heap s1' !! r1 = Some w' ∧ heap s2' !! r2 = Some w')).
Proof.
  apply (Tick_ignores_counters (boot [blinker])
           (boot [(λ cell, mkCell (alive cell) 7) <$> blinker]) 0%nat 0%nat
           blinker ((λ cell, mkCell (alive cell) 7) <$> blinker)).
  - intros k w. reflexivity.
  - intros k w. reflexivity.
  - reflexivity.
  - reflexivity.
  - intros c. rewrite lookup_fmap. by destruct (blinker !! c).
Defined.

(** * More of what the code does *)

(** ** The stages on their own *)

Lemma deflate_inflate (w : World) : deflate (inflate w) = deflate w.
Proof.
  apply map_eq. intros c. rewrite !deflate_lookup, inflate_lookup.
  destruct (w !! c) as [cell|]; [done|]. by destruct (decide _).
Qed.

Lemma deflate_sparse (w : World) :
  (∀ c cell, w !! c = Some cell → alive cell = true) → deflate w = w.
Proof.
  intros Hw. apply map_eq. intros c. rewrite deflate_lookup.
  destruct (w !! c) as [cell|] eqn:Hc; [|done]. by rewrite (Hw c cell).
Qed.

Lemma deflate_deflate (w : World) : deflate (deflate w) = deflate w.
Proof.
  apply deflate_sparse. intros c cell. rewrite deflate_lookup.
  destruct (w !! c) as [cell'|]; [|done].
  destruct (alive cell') eqn:Hc; [|done]. by intros [= <-].
Qed.

Lemma deflate_ruled (w : World) : deflate (ruled w) = ruled w.
Proof.
  apply deflate_sparse. intros c cell Hc.
  rewrite ruled_lookup in Hc. destruct (w !! c); [|done].
  by apply fate_live in Hc as ->.
Qed.

(** X1. [Inflate] copies every entry of its receiver as it is, adds the
    entry [Cell{false, 0}] at every other coordinate among the nine around a
    key, and adds nothing else. *)
Theorem Inflate_keeps_and_pads (s : State) (world : ref) (w : World) :
  fair s → heap s !! world = Some w →
  returns (Inflate world) s (λ r s',
    (∀ c cell, w !! c = Some cell → world_at s' r !! c = Some cell)
    ∧ (∀ c k, w !! c = None → is_Some (w !! k) → c ∈ block k →
         world_at s' r !! c = Some (mkCell false 0))
    ∧ (∀ c, w !! c = None → (∀ k, is_Some (w !! k) → c ∉ block k) →
         world_at s' r !! c = None)).
Proof.
  intros Hfair Hw. eexists _, _. split; [by apply Inflate_run|].
  unfold world_at. rewrite heap_alloc_fresh. simpl.
  split; [|split].
  - intros c cell Hc. by rewrite inflate_lookup, Hc.
  - intros c k Hc Hk Hin. rewrite inflate_lookup, Hc.
    rewrite decide_True; [done|]. apply elem_of_halo. exists k.
    split; [by apply elem_of_dom|done].
  - intros c Hc Hfar. rewrite inflate_lookup, Hc.
    rewrite decide_False; [done|]. intros (k & Hk & Hin)%elem_of_halo.
    apply elem_of_dom in Hk. by apply (Hfar k).
Qed.

Lemma Inflate_keeps_and_pads_witness :
  returns (Inflate 0%nat) (boot [blinker]) (λ r s',
    (∀ c cell, blinker !! c = Some cell → world_at s' r !! c = Some cell)
    ∧ (∀ c k, blinker !! c = None → is_Some (blinker !! k) → c ∈ block k →
         world_at s' r !! c = Some (mkCell false 0))
    ∧ (∀ c, blinker !! c = None → (∀ k, is_Some (blinker !! k) → c ∉ block k) →
         world_at s' r !! c = None)).
Proof.
  apply (Inflate_keeps_and_pads (boot [blinker]) 0%nat blinker).
  - intros k w. reflexivity.
  - reflexivity.
Defined.

(** X2. Round trip: on a table all of whose entries are alive,
    [world.Inflate().Deflate()] returns a table with the content of [world];
    on any table it returns what [world.Deflate()] returns. *)
Theorem Inflate_then_Deflate (s : State) (world : ref) (w : World) :
  fair s → heap s !! world = Some w →
  returns (t ← Inflate world; Deflate t)%go s (λ r s',
    heap s' !! r = Some (deflate w)
    ∧ ((∀ c cell, w !! c = Some cell → alive cell = true) → heap s' !! r = Some w))
  ∧ returns (Deflate world) s (λ r s', heap s' !! r = Some (deflate w)).
Proof.
  intros Hfair Hw. split.
  - eexists _, _. split.
    + bind_step ltac:(by apply Inflate_run).
      apply Deflate_run; [done|apply heap_alloc_fresh].
    + rewrite heap_alloc_fresh, deflate_inflate. split; [done|].
      intros Hsparse. by rewrite deflate_sparse.
  - eexists _, _. split; [by apply Deflate_run|]. by rewrite heap_alloc_fresh.
Qed.

Lemma Inflate_then_Deflate_witness :
  returns (t ← Inflate 0%nat; Deflate t)%go (boot [pentomino]) (λ r s',
    heap s' !! r = Some (deflate pentomino)
    ∧ ((∀ c cell, pentomino !! c = Some cell → alive cell = true) →
       heap s' !! r = Some pentomino))
  ∧ returns (Deflate 0%nat) (boot [pentomino]) (λ r s',
      heap s' !! r = Some (deflate pentomino)).
Proof.
  apply (Inflate_then_Deflate (boot [pentomino]) 0%nat pentomino).
  - intros k w. reflexivity.
  - reflexivity.
Defined.

(** X3. [Deflate] returns exactly the entries of its receiver whose [alive]
    is true, each with the cell it had, counter included: it does not reset
    [n].  Applied to its own result it changes nothing. *)
Theorem Deflate_keeps_live_entries (s : State) (world : ref) (w : World) :
  fair s → heap s !! world = Some w →
  returns (Deflate world) s (λ r s',
    (∀ c cell, world_at s' r !! c = Some cell ↔ w !! c = Some cell ∧ alive cell = true)
    ∧ returns (Deflate r) s' (λ r2 s2, heap s2 !! r2 = heap s' !! r)).
Proof.
  intros Hfair Hw. eexists _, _. split; [by apply Deflate_run|].
  unfold world_at. rewrite heap_alloc_fresh. simpl. split.
  - intros c cell. rewrite deflate_lookup.
    destruct (w !! c) as [cell'|]; [|split; [done|by intros [? _]]].
    destruct (alive cell') eqn:Hc; split.
    + by intros [= <-].
    + by intros [[= <-] _].
    + done.
    + intros [[= <-] ?]. congruence.
  - eexists _, _. split; [apply Deflate_run; [done|apply heap_alloc_fresh]|].
    by rewrite heap_alloc_fresh, deflate_deflate.
Qed.

Lemma Deflate_keeps_live_entries_witness :
  returns (Deflate 0%nat) (boot [counted blinker]) (λ r s',
    (∀ c cell, world_at s' r !! c = Some cell
               ↔ counted blinker !! c = Some cell ∧ alive cell = true)
    ∧ returns (Deflate r) s' (λ r2 s2, heap s2 !! r2 = heap s' !! r)).
Proof.
  apply (Deflate_keeps_live_entries (boot [counted blinker]) 0%nat (counted blinker)).
  - intros k w. reflexivity.
  - reflexivity.
Defined.

Lemma live_neighbours_bounds (w : World) c : 0 ≤ live_neighbours w c ≤ 8.
Proof.
  unfold live_neighbours.
  pose proof (length_filter (λ c', is_alive w c' = true) (neighbours c)) as Hle.
  change (length (neighbours c)) with 8%nat in Hle. lia.
Qed.

(** X4. [CountLiveNeighbours] returns a table with the keys and the [alive]
    flags of its receiver; the counter of each entry is the number of live
    cells among its eight neighbours in the receiver, between 0 and 8,
    whatever counter the entry had before. *)
Theorem CountLiveNeighbours_counts (s : State) (world : ref) (w : World) :
  fair s → heap s !! world = Some w →
  returns (Staged.CountLiveNeighbours world) s (λ r s',
    same_life w (world_at s' r)
    ∧ ∀ c cell, world_at s' r !! c = Some cell →
        n cell = live_neighbours w c ∧ 0 ≤ n cell ≤ 8).
Proof.
  intros Hfair Hw. eexists _, _. split; [by apply CountLiveNeighbours_run|].
  unfold world_at. rewrite heap_alloc_fresh. simpl. split.
  - intros c. rewrite counted_lookup. by destruct (w !! c).
  - intros c cell. rewrite counted_lookup. destruct (w !! c) as [cell'|]; [|done].
    intros [= <-]. simpl. split; [done|apply live_neighbours_bounds].
Qed.

Lemma CountLiveNeighbours_counts_witness :
  returns (Staged.CountLiveNeighbours 0%nat) (boot [inflate blinker]) (λ r s',
    same_life (inflate blinker) (world_at s' r)
    ∧ ∀ c cell, world_at s' r !! c = Some cell →
        n cell = live_neighbours (inflate blinker) c ∧ 0 ≤ n cell ≤ 8).
Proof.
  apply (CountLiveNeighbours_counts (boot [inflate blinker]) 0%nat (inflate blinker)).
  - intros k w. reflexivity.
  - reflexivity.
Defined.

(** X5. What [ApplyRules] returns holds live cells only, so the [Deflate]
    that ends [Tick] drops nothing: it returns a table with the same
    content.  The same holds of the table the in-place [Tick] returns. *)
Theorem final_Deflate_keeps_all (s : State) (world : ref) (w : World) :
  fair s → heap s !! world = Some w →
  returns (Staged.ApplyRules world) s (λ r1 s1,
    returns (Deflate r1) s1 (λ r2 s2,
      is_Some (heap s1 !! r1) ∧ heap s2 !! r2 = heap s1 !! r1))
  ∧ returns (Single.Tick world) s (λ r1 s1,
    returns (Deflate r1) s1 (λ r2 s2,
      is_Some (heap s1 !! r1) ∧ heap s2 !! r2 = heap s1 !! r1)).
Proof.
  intros Hfair Hw. split.
  - eexists _, _. split; [by apply ApplyRules_run|].
    eexists _, _. split; [apply Deflate_run; [done|apply heap_alloc_fresh]|].
    rewrite !heap_alloc_fresh, deflate_ruled. split; [by eexists|done].
  - destruct (Single_Tick_result world s w) as (r1 & s1 & Hrun & Hr1 & _); [done..|].
    assert (fair s1) as Hfair1.
    { assert (Hsame := Single_Tick_run world s w Hfair Hw).
      rewrite Hrun in Hsame. by injection Hsame as _ ->. }
    exists r1, s1. split; [done|].
    eexists _, _. split; [by apply Deflate_run|].
    rewrite heap_alloc_fresh, deflate_ruled, Hr1. split; [by eexists|done].
Qed.

Lemma final_Deflate_keeps_all_witness :
  returns (Staged.ApplyRules 0%nat) (boot [counted (inflate blinker)]) (λ r1 s1,
    returns (Deflate r1) s1 (λ r2 s2,
      is_Some (heap s1 !! r1) ∧ heap s2 !! r2 = heap s1 !! r1))
  ∧ returns (Single.Tick 0%nat) (boot [counted (inflate blinker)]) (λ r1 s1,
    returns (Deflate r1) s1 (λ r2 s2,
      is_Some (heap s1 !! r1) ∧ heap s2 !! r2 = heap s1 !! r1)).
Proof.
  apply (final_Deflate_keeps_all (boot [counted (inflate blinker)]) 0%nat
           (counted (inflate blinker))).
  - intros k w. reflexivity.
  - reflexivity.
Defined.

(** X6. Without [Inflate] nothing is born outside the table: every key of
    the table the in-place [Tick] returns is a key of its receiver, so a
    coordinate the receiver has no entry for is never in the result.  The
    same holds of [ApplyRules]. *)
Theorem Tick_alone_adds_no_key (s : State) (world : ref) (w : World) :
  fair s → heap s !! world = Some w →
  returns (Single.Tick world) s (λ r s',
    ∀ c, is_Some (world_at s' r !! c) → is_Some (w !! c))
  ∧ returns (Staged.ApplyRules world) s (λ r s',
    ∀ c, is_Some (world_at s' r !! c) → is_Some (w !! c)).
Proof.
  intros Hfair Hw. split.
  - destruct (Single_Tick_result world s w) as (r & s' & Hrun & Hr & _); [done..|].
    exists r, s'. split; [done|]. rewrite (world_at_Some _ _ _ Hr).
    intros c [v Hv]. rewrite ruled_lookup, counted_lookup in Hv.
    by destruct (w !! c).
  - eexists _, _. split; [by apply ApplyRules_run|].
    unfold world_at. rewrite heap_alloc_fresh. simpl.
    intros c [v Hv]. rewrite ruled_lookup in Hv. by destruct (w !! c).
Qed.

Lemma Tick_alone_adds_no_key_witness :
  returns (Single.Tick 0%nat) (boot [blinker]) (λ r s',
    ∀ c, is_Some (world_at s' r !! c) → is_Some (blinker !! c))
  ∧ returns (Staged.ApplyRules 0%nat) (boot [blinker]) (λ r s',
    ∀ c, is_Some (world_at s' r !! c) → is_Some (blinker !! c)).
Proof.
  apply (Tick_alone_adds_no_key (boot [blinker]) 0%nat blinker).
  - intros k w. reflexivity.
  - reflexivity.
Defined.

Lemma counted_counted (w : World) : counted (counted w) = counted w.
Proof.
  apply same_life_counted_eq. intros c. rewrite counted_lookup. by destruct (w !! c).
Qed.

(** X7. The in-place [Tick] can be run again on its receiver: the second
    call returns a table with the content of the first result and leaves the
    receiver, which the first call filled with the counts, as it finds it. *)
Theorem Tick_in_place_again (s : State) (world : ref) (w : World) :
  fair s → heap s !! world = Some w →
  returns (Single.Tick world) s (λ r1 s1,
    returns (Single.Tick world) s1 (λ r2 s2,
      is_Some (heap s1 !! r1)
      ∧ heap s2 !! r2 = heap s1 !! r1
      ∧ heap s2 !! world = heap s1 !! world
      ∧ heap s2 !! r1 = heap s1 !! r1)).
Proof.
  intros Hfair Hw.
  destruct (Single_Tick_result world s w) as (r1 & s1 & Hrun1 & Hr1 & Hw1 & ->);
    [done..|].
  assert (fair s1) as Hfair1.
  { assert (Hsame := Single_Tick_run world s w Hfair Hw).
    rewrite Hrun1 in Hsame. by injection Hsame as ->. }
  destruct (Single_Tick_result world s1 (counted w)) as (r2 & s2 & Hrun2 & Hr2 & Hw2 & ->);
    [done..|].
  eexists _, s1. split; [done|]. eexists _, s2. split; [done|].
  split; [by eexists|]. rewrite Hr2, Hr1, Hw2, Hw1, !counted_counted.
  split; [done|]. split; [done|].
  assert (Hsame := Single_Tick_run world s1 (counted w) Hfair1 Hw1).
  rewrite Hrun2 in Hsame. injection Hsame as ->. simpl.
  apply lookup_app_l_Some. rewrite list_lookup_insert_ne; [done|].
  apply lookup_lt_Some in Hw. lia.
Qed.

Lemma Tick_in_place_again_witness :
  returns (Single.Tick 0%nat) (boot [inflate blinker]) (λ r1 s1,
    returns (Single.Tick 0%nat) s1 (λ r2 s2,
      is_Some (heap s1 !! r1)
      ∧ heap s2 !! r2 = heap s1 !! r1
      ∧ heap s2 !! 0%nat = heap s1 !! 0%nat
      ∧ heap s2 !! r1 = heap s1 !! r1)).
Proof.
  apply (Tick_in_place_again (boot [inflate blinker]) 0%nat (inflate blinker)).
  - intros k w. reflexivity.
  - reflexivity.
Defined.

Lemma fair_boot_reversed h : fair (boot_reversed h).
Proof. intros k w. apply reverse_Permutation. Qed.

(** X8. No stage depends on the order in which [range] walks its receiver:
    on tables with the same content, under any two fair schedulers and in
    any two states, [Inflate], [Deflate], [CountLiveNeighbours],
    [ApplyRules] and the in-place [Tick] each return tables with the same
    content, and the in-place [Tick] leaves its two receivers with the same
    content. *)
Theorem stages_ignore_walk_order (s1 s2 : State) (m1 m2 : ref) (w : World) :
  fair s1 → fair s2 → heap s1 !! m1 = Some w → heap s2 !! m2 = Some w →
  returns (Inflate m1) s1 (λ r1 s1', returns (Inflate m2) s2 (λ r2 s2',
    ∃ w', heap s1' !! r1 = Some w' ∧ heap s2' !! r2 = Some w'))
  ∧ returns (Deflate m1) s1 (λ r1 s1', returns (Deflate m2) s2 (λ r2 s2',
    ∃ w', heap s1' !! r1 = Some w' ∧ heap s2' !! r2 = Some w'))
  ∧ returns (Staged.CountLiveNeighbours m1) s1 (λ r1 s1',
    returns (Staged.CountLiveNeighbours m2) s2 (λ r2 s2',
    ∃ w', heap s1' !! r1 = Some w' ∧ heap s2' !! r2 = Some w'))
  ∧ returns (Staged.ApplyRules m1) s1 (λ r1 s1',
    returns (Staged.ApplyRules m2) s2 (λ r2 s2',
    ∃ w', heap s1' !! r1 = Some w' ∧ heap s2' !! r2 = Some w'))
  ∧ returns (Single.Tick m1) s1 (λ r1 s1', returns (Single.Tick m2) s2 (λ r2 s2',
    (∃ w', heap s1' !! r1 = Some w' ∧ heap s2' !! r2 = Some w')
    ∧ ∃ w', heap s1' !! m1 = Some w' ∧ heap s2' !! m2 = Some w')).
Proof.
  intros Hf1 Hf2 Hw1 Hw2. repeat split.
  - eexists _, _. split; [by apply Inflate_run|].
    eexists _, _. split; [by apply Inflate_run|].
    exists (inflate w). by rewrite !heap_alloc_fresh.
  - eexists _, _. split; [by apply Deflate_run|].
    eexists _, _. split; [by apply Deflate_run|].
    exists (deflate w). by rewrite !heap_alloc_fresh.
  - eexists _, _. split; [by apply CountLiveNeighbours_run|].
    eexists _, _. split; [by apply CountLiveNeighbours_run|].
    exists (counted w). by rewrite !heap_alloc_fresh.
  - eexists _, _. split; [by apply ApplyRules_run|].
    eexists _, _. split; [by apply ApplyRules_run|].
    exists (ruled w). by rewrite !heap_alloc_fresh.
  - destruct (Single_Tick_result m1 s1 w) as (r1 & s1' & Hrun1 & Hr1 & Hm1 & _); [done..|].
    destruct (Single_Tick_result m2 s2 w) as (r2 & s2' & Hrun2 & Hr2 & Hm2 & _); [done..|].
    exists r1, s1'. split; [done|]. exists r2, s2'. split; [done|].
    split; [by exists (ruled (counted w))|by exists (counted w)].
Qed.

Lemma stages_ignore_walk_order_witness :
  returns (Inflate 0%nat) (boot [pentomino]) (λ r1 s1',
    returns (Inflate 1%nat) (boot_reversed [blinker; pentomino]) (λ r2 s2',
    ∃ w', heap s1' !! r1 = Some w' ∧ heap s2' !! r2 = Some w'))
  ∧ returns (Deflate 0%nat) (boot [pentomino]) (λ r1 s1',
    returns (Deflate 1%nat) (boot_reversed [blinker; pentomino]) (λ r2 s2',
    ∃ w', heap s1' !! r1 = Some w' ∧ heap s2' !! r2 = Some w'))
  ∧ returns (Staged.CountLiveNeighbours 0%nat) (boot [pentomino]) (λ r1 s1',
    returns (Staged.CountLiveNeighbours 1%nat) (boot_reversed [blinker; pentomino])
      (λ r2 s2', ∃ w', heap s1' !! r1 = Some w' ∧ heap s2' !! r2 = Some w'))
  ∧ returns (Staged.ApplyRules 0%nat) (boot [pentomino]) (λ r1 s1',
    returns (Staged.ApplyRules 1%nat) (boot_reversed [blinker; pentomino])
      (λ r2 s2', ∃ w', heap s1' !! r1 = Some w' ∧ heap s2' !! r2 = Some w'))
  ∧ returns (Single.Tick 0%nat) (boot [pentomino]) (λ r1 s1',
    returns (Single.Tick 1%nat) (boot_reversed [blinker; pentomino]) (λ r2 s2',
    (∃ w', heap s1' !! r1 = Some w' ∧ heap s2' !! r2 = Some w')
    ∧ ∃ w', heap s1' !! 0%nat = Some w' ∧ heap s2' !! 1%nat = Some w')).
Proof.
  apply (stages_ignore_walk_order (boot [pentomino]) (boot_reversed [blinker; pentomino])
           0%nat 1%nat pentomino).
  - intros k w. reflexivity.
  - intros k w. apply reverse_Permutation.
  - reflexivity.
  - reflexivity.
Defined.

(** ** How far a generation can reach *)

Lemma size_union_le (X Y : gset Coord) : (size (X ∪ Y) ≤ size X + size Y)%nat.
Proof.
  rewrite size_union_alt.
  assert (size (Y ∖ X) ≤ size Y)%nat by (apply subseteq_size, subseteq_difference_l; done).
  lia.
Qed.

Lemma halo_union (X Y : gset Coord) : halo (X ∪ Y) = halo X ∪ halo Y.
Proof.
  apply set_eq. intros c. rewrite elem_of_union, !elem_of_halo. split.
  - intros (k & [Hk|Hk]%elem_of_union & Hc); [left|right]; by exists k.
  - intros [(k & Hk & Hc)|(k & Hk & Hc)]; exists k; (split; [|done]);
      apply elem_of_union; [by left|by right].
Qed.

Lemma halo_singleton (k : Coord) : halo {[k]} = list_to_set (block k).
Proof.
  apply set_eq. intros c. rewrite elem_of_halo, elem_of_list_to_set. split.
  - by intros (k' & ->%elem_of_singleton & Hc).
  - intros Hc. exists k. split; [by apply elem_of_singleton|done].
Qed.

Lemma size_halo (D : gset Coord) : (size (halo D) ≤ 9 * size D)%nat.
Proof.
  induction D as [|k D Hk IH] using set_ind_L.
  - replace (halo ∅) with (∅ : gset Coord); [by rewrite size_empty|].
    apply set_eq. intros c. rewrite elem_of_halo. split.
    + by intros ?%not_elem_of_empty.
    + by intros (k & ?%not_elem_of_empty & _).
  - rewrite halo_union, halo_singleton.
    rewrite (size_union {[k]} D) by (by apply disjoint_singleton_l).
    rewrite size_singleton.
    etrans; [apply size_union_le|].
    pose proof (size_list_to_set_le (block k)) as Hb.
    change (length (block k)) with 9%nat in Hb. lia.
Qed.

Lemma move_nowhere c : is_coord c → move 0 0 c = c.
Proof.
  intros [Hx Hy]. destruct c as [cx cy]. unfold move, int_add. simpl in *.
  by rewrite !Z.add_0_r, !int_wrap_id.
Qed.

Lemma key_in_halo (D : gset Coord) k : k ∈ D → is_coord k → k ∈ halo D.
Proof.
  intros Hk Hc. apply elem_of_halo. exists k. split; [done|].
  apply elem_of_block. exists 0, 0. split; [lia|]. split; [lia|].
  by rewrite move_nowhere.
Qed.

Lemma dom_counted (w : World) : dom (counted w) = dom w.
Proof.
  apply set_eq. intros c. rewrite !elem_of_dom, counted_lookup.
  by rewrite fmap_is_Some.
Qed.

(** X9. [Inflate] returns at least as many entries as it was given; when the
    keys are [int] pairs it returns at most nine times as many, and so does
    a whole generation. *)
Theorem Inflate_at_most_ninefold (world : ref) (s : State) (w : World) :
  fair s → heap s !! world = Some w → (∀ k, is_Some (w !! k) → is_coord k) →
  returns (Inflate world) s (λ r s',
    ∃ w', heap s' !! r = Some w' ∧ (size w ≤ size w' ≤ 9 * size w)%nat)
  ∧ returns (Staged.Tick world) s (λ r s',
    ∃ w', heap s' !! r = Some w' ∧ (size w' ≤ 9 * size w)%nat).
Proof.
  intros Hfair Hworld Hkeys.
  assert (size w ≤ size (inflate w))%nat as Hlo.
  { apply map_subseteq_size. unfold inflate. apply map_union_subseteq_l. }
  assert (size (inflate w) ≤ 9 * size w)%nat as Hhi.
  { rewrite <- !(size_dom (D := gset Coord)).
    etrans; [|apply size_halo]. apply subseteq_size. intros c Hc.
    apply elem_of_dom in Hc as [v Hv]. rewrite inflate_lookup in Hv.
    destruct (w !! c) eqn:Hwc.
    - apply key_in_halo; [by apply elem_of_dom|by apply Hkeys].
    - by destruct (decide (c ∈ halo (dom w))). }
  split.
  - eexists _, _. split; [by apply Inflate_run|].
    exists (inflate w). by rewrite heap_alloc_fresh.
  - destruct (Staged_Tick_result world s w) as (r & s' & Hrun & Hr & _); [done..|].
    exists r, s'. split; [done|]. exists (tick w). split; [done|].
    etrans; [|exact Hhi]. unfold tick, deflate, ruled.
    etrans; [apply map_subseteq_size, map_filter_subseteq|].
    rewrite <- !(size_dom (D := gset Coord)).
    etrans; [apply subseteq_size, dom_omap_subseteq|].
    apply Nat.eq_le_incl. f_equal. apply dom_counted.
Qed.

Lemma world_of_lookup (l : list Coord) c :
  world_of l !! c = if decide (c ∈ l) then Some live else None.
Proof.
  unfold world_of.
  pose proof (foldl_insert_lookup (λ _, Some live) l ∅ c) as H. simpl in H.
  rewrite lookup_empty in H. exact H.
Qed.

Lemma world_of_keys (l : list Coord) :
  Forall is_coord l → ∀ k, is_Some (world_of l !! k) → is_coord k.
Proof.
  intros Hl k [v Hv]. rewrite world_of_lookup in Hv.
  destruct (decide (k ∈ l)) as [Hk|]; [|done].
  by apply (proj1 (Forall_forall _ _) Hl).
Qed.

Lemma is_coord_near a b : -100 ≤ a ≤ 100 → -100 ≤ b ≤ 100 → is_coord (mkCoord a b).
Proof. unfold is_coord, is_int, int_min, int_max. simpl. lia. Qed.

Lemma blinker_keys : ∀ k, is_Some (blinker !! k) → is_coord k.
Proof. apply world_of_keys. repeat constructor; apply is_coord_near; lia. Qed.

Lemma Inflate_at_most_ninefold_witness :
  returns (Inflate 0%nat) (boot [blinker]) (λ r s',
    ∃ w', heap s' !! r = Some w' ∧ (size blinker ≤ size w' ≤ 9 * size blinker)%nat)
  ∧ returns (Staged.Tick 0%nat) (boot [blinker]) (λ r s',
    ∃ w', heap s' !! r = Some w' ∧ (size w' ≤ 9 * size blinker)%nat).
Proof.
  apply (Inflate_at_most_ninefold 0%nat (boot [blinker]) blinker).
  - intros k w. reflexivity.
  - reflexivity.
  - exact blinker_keys.
Defined.

(** ** Patterns too small to live *)

Lemma int_add_offset a i i' :
  -1 ≤ i ≤ 1 → -1 ≤ i' ≤ 1 → int_add a i = int_add a i' → i = i'.
Proof.
  unfold int_add, int_wrap. intros Hi Hi' H.
  assert ((a + i + 2 ^ 63) `mod` 2 ^ 64 = (a + i' + 2 ^ 63) `mod` 2 ^ 64) as Hm by lia.
  pose proof (Z.div_mod (a + i + 2 ^ 63) (2 ^ 64) ltac:(lia)) as H1.
  pose proof (Z.div_mod (a + i' + 2 ^ 63) (2 ^ 64) ltac:(lia)) as H2.
  rewrite Hm in H1. lia.
Qed.

Lemma move_offset c i j i' j' :
  -1 ≤ i ≤ 1 → -1 ≤ j ≤ 1 → -1 ≤ i' ≤ 1 → -1 ≤ j' ≤ 1 →
  move i j c = move i' j' c → i = i' ∧ j = j'.
Proof.
  unfold move. intros Hi Hj Hi' Hj' [= Hx Hy].
  split; eapply int_add_offset; eauto.
Qed.

Lemma neighbours_offsets c :
  neighbours c
  = (λ ij : Z * Z, move ij.1 ij.2 c)
      <$> [(-1, -1); (-1, 0); (-1, 1); (0, -1); (0, 1); (1, -1); (1, 0); (1, 1)].
Proof. reflexivity. Qed.

Lemma NoDup_neighbours c : NoDup (neighbours c).
Proof.
  rewrite neighbours_offsets. apply NoDup_fmap_2_strong.
  - intros [i j] [i' j'] Hij Hij' Heq. simpl in Heq.
    assert (-1 ≤ i ≤ 1 ∧ -1 ≤ j ≤ 1).
    { repeat (apply elem_of_cons in Hij as [[= -> ->]|Hij]; [lia|]).
      by apply elem_of_nil in Hij. }
    assert (-1 ≤ i' ≤ 1 ∧ -1 ≤ j' ≤ 1).
    { repeat (apply elem_of_cons in Hij' as [[= -> ->]|Hij']; [lia|]).
      by apply elem_of_nil in Hij'. }
    apply move_offset in Heq as [-> ->]; [done|lia..].
  - apply (bool_decide_unpack _). by vm_compute.
Qed.

Lemma not_own_neighbour c : c ∉ neighbours c.
Proof.
  intros (i & j & Hi & Hj & Hij & Hc)%elem_of_neighbours.
  assert (is_coord c) as Hcoord by (rewrite Hc; apply move_is_coord).
  rewrite <- (move_nowhere c) in Hc at 1 by done.
  apply move_offset in Hc as [<- <-]; lia.
Qed.

Lemma is_alive_deflate w c : is_alive w c = true ↔ c ∈ dom (deflate w).
Proof.
  rewrite elem_of_dom, deflate_lookup. unfold is_alive.
  destruct (w !! c) as [cell|]; simpl.
  - destruct (alive cell); split; try done; by intros [? ?].
  - split; [done|by intros [? ?]].
Qed.

(** The count of a cell is bounded by the number of live cells other than
    itself. *)
Lemma live_neighbours_le w c :
  (Z.to_nat (live_neighbours w c) ≤ size (dom (deflate w) ∖ {[c]}))%nat.
Proof.
  unfold live_neighbours. rewrite Nat2Z.id.
  set (l := filter _ _).
  assert (NoDup l) as Hnd by apply NoDup_filter, NoDup_neighbours.
  rewrite <- (size_list_to_set (C := gset Coord) l) by done.
  apply subseteq_size. intros c' Hc'.
  apply elem_of_list_to_set, list_elem_of_filter in Hc' as [Halive Hin].
  apply elem_of_difference. split; [by apply is_alive_deflate|].
  intros ->%elem_of_singleton. by eapply not_own_neighbour.
Qed.

Lemma tick_few (w : World) : (size (deflate w) < 3)%nat → tick w = ∅.
Proof.
  intros Hsize. apply map_eq. intros c.
  rewrite lookup_empty, tick_lookup_raw.
  destruct (inflate w !! c) as [cell|] eqn:Hc; [|done].
  unfold recount.
  rewrite (live_neighbours_ext w (inflate w) c) by (intros; apply is_alive_inflate).
  pose proof (live_neighbours_le w c) as Hle.
  pose proof (live_neighbours_bounds w c) as [Hlo _].
  rewrite <- (size_dom (D := gset Coord)) in Hsize.
  unfold fate. simpl. destruct (alive cell) eqn:Halive.
  - assert (c ∈ dom (deflate w)) as Hin.
    { apply is_alive_deflate. rewrite <- is_alive_inflate.
      unfold is_alive. by rewrite Hc. }
    rewrite size_difference in Hle by (by apply singleton_subseteq_l).
    rewrite size_singleton in Hle.
    destruct (1 <? live_neighbours w c) eqn:Hn; [|done].
    apply Z.ltb_lt in Hn. lia.
  - assert (size (dom (deflate w) ∖ {[c]}) ≤ size (dom (deflate w)))%nat
      by apply subseteq_size, subseteq_difference_l, reflexivity.
    destruct (live_neighbours w c =? 3) eqn:Hn; [|done].
    apply Z.eqb_eq in Hn. lia.
Qed.

(** X10. A table with fewer than three live cells has none after one
    generation: the staged [Tick] and the chain [Inflate], in-place [Tick],
    [Deflate] both return an empty table. *)
Theorem fewer_than_three_die (world : ref) (s : State) (w : World) :
  fair s → heap s !! world = Some w → (size (deflate w) < 3)%nat →
  returns (Staged.Tick world) s (λ r s', heap s' !! r = Some ∅)
  ∧ returns (Single.generation world) s (λ r s', heap s' !! r = Some ∅).
Proof.
  intros Hfair Hworld Hsize. split.
  - destruct (Staged_Tick_result world s w) as (r & s' & Hrun & Hr & _); [done..|].
    exists r, s'. split; [done|]. by rewrite Hr, tick_few.
  - destruct (Single_generation_result world s w) as (r & s' & Hrun & Hr & _); [done..|].
    exists r, s'. split; [done|]. by rewrite Hr, tick_few.
Qed.

Lemma fewer_than_three_die_witness :
  returns (Staged.Tick 0%nat) (boot [world_of [mkCoord 0 0; mkCoord 1 1]])
    (λ r s', heap s' !! r = Some ∅)
  ∧ returns (Single.generation 0%nat) (boot [world_of [mkCoord 0 0; mkCoord 1 1]])
    (λ r s', heap s' !! r = Some ∅).
Proof.
  apply (fewer_than_three_die 0%nat (boot [world_of [mkCoord 0 0; mkCoord 1 1]])
           (world_of [mkCoord 0 0; mkCoord 1 1])).
  - intros k w. reflexivity.
  - reflexivity.
  - vm_compute. lia.
Defined.

(** ** What a plot block contains *)

Lemma walk_keys s k (w : World) :
  fair s →
  NoDup (sched s k w) ∧ (∀ c, c ∈ sched s k w ↔ is_Some (w !! c))
  ∧ length (sched s k w) = size w.
Proof.
  intros Hfair. pose proof (Hfair k w) as Hperm. split; [|split].
  - rewrite Hperm. apply NoDup_fst_map_to_list.
  - intros c. rewrite Hperm. apply elem_of_keys.
  - rewrite Hperm, length_fmap. apply length_map_to_list.
Qed.

(** X11. [gnuplotWorld] prints the plot command, one line for every entry
    of the table, live or dead, each entry once, and the closing ["e"]:
    [2 + size w] lines.  It changes no table.  The same holds of the
    [src/gol.go] variant, with its own plot command. *)
Theorem gnuplotWorld_plots_every_entry (world : ref) (s : State) (w : World) :
  fair s → heap s !! world = Some w →
  (∃ s' ks, gnuplotWorld world s = (Ok tt, s')
     ∧ stdout s' = stdout s ++ Text "plot '-' with points ls 1"
                               :: (point_line <$> ks) ++ [Text "e"]
     ∧ NoDup ks ∧ (∀ c, c ∈ ks ↔ is_Some (w !! c))
     ∧ length (stdout s') = (length (stdout s) + 2 + size w)%nat
     ∧ heap s' = heap s)
  ∧ (∃ s' ks, Single.gnuplotWorld world s = (Ok tt, s')
     ∧ stdout s' = stdout s ++ Text "plot '-' with points pointtype 6"
                               :: (point_line <$> ks) ++ [Text "e"]
     ∧ NoDup ks ∧ (∀ c, c ∈ ks ↔ is_Some (w !! c))
     ∧ length (stdout s') = (length (stdout s) + 2 + size w)%nat
     ∧ heap s' = heap s).
Proof.
  intros Hfair Hworld.
  destruct (walk_keys s (loops s) w Hfair) as (Hnd & Hin & Hlen).
  split.
  - exists (emit (plot_block "plot '-' with points ls 1" (sched s (loops s) w)) (started s)),
      (sched s (loops s) w).
    split; [by apply gnuplotWorld_run|]. split; [done|]. do 2 (split; [done|]).
    split; [|done]. simpl.
    rewrite !length_app. simpl. rewrite !length_app, length_fmap. simpl. lia.
  - exists (emit (plot_block "plot '-' with points pointtype 6" (sched s (loops s) w))
              (started s)), (sched s (loops s) w).
    split; [by apply Single_gnuplotWorld_run|]. split; [done|]. do 2 (split; [done|]).
    split; [|done]. simpl.
    rewrite !length_app. simpl. rewrite !length_app, length_fmap. simpl. lia.
Qed.

Lemma gnuplotWorld_plots_every_entry_witness :
  (∃ s' ks, gnuplotWorld 0%nat (boot [blinker]) = (Ok tt, s')
     ∧ stdout s' = stdout (boot [blinker]) ++ Text "plot '-' with points ls 1"
                               :: (point_line <$> ks) ++ [Text "e"]
     ∧ NoDup ks ∧ (∀ c, c ∈ ks ↔ is_Some (blinker !! c))
     ∧ length (stdout s') = (length (stdout (boot [blinker])) + 2 + size blinker)%nat
     ∧ heap s' = heap (boot [blinker]))
  ∧ (∃ s' ks, Single.gnuplotWorld 0%nat (boot [blinker]) = (Ok tt, s')
     ∧ stdout s' = stdout (boot [blinker]) ++ Text "plot '-' with points pointtype 6"
                               :: (point_line <$> ks) ++ [Text "e"]
     ∧ NoDup ks ∧ (∀ c, c ∈ ks ↔ is_Some (blinker !! c))
     ∧ length (stdout s') = (length (stdout (boot [blinker])) + 2 + size blinker)%nat
     ∧ heap s' = heap (boot [blinker])).
Proof.
  apply (gnuplotWorld_plots_every_entry 0%nat (boot [blinker]) blinker).
  - intros k w. reflexivity.
  - reflexivity.
Defined.

(** ** Reading the pattern *)

Lemma bind_panic {A B} (m : M A) (f : A → M B) s msg s' :
  m s = (Panic msg, s') → bind m f s = (Panic msg, s').
Proof. unfold bind. by intros ->. Qed.

Lemma bad_entry_read pattern xy : bad_entry xy → ∃ l, read_entry pattern xy = inr l.
Proof.
  intros Hbad. destruct (read_entry pattern xy) as [c|l] eqn:Hxy; [|by exists l].
  by apply read_entry_inl in Hxy.
Qed.

Lemma read_entries_first_bad pattern good xy rest l :
  Forall (λ e, ¬ bad_entry e) good → read_entry pattern xy = inr l →
  ∃ cs, read_entries pattern (good ++ xy :: rest) = (cs, Some l)
        ∧ Forall2 (λ e c, read_entry pattern e = inl c) good cs.
Proof.
  intros Hgood Hxy. induction Hgood as [|e good He _ IH]; simpl.
  - rewrite Hxy. by exists [].
  - destruct (read_entry pattern e) as [c|l'] eqn:Hreade.
    + destruct IH as (cs & -> & Hcs). exists (c :: cs). split; [done|by constructor].
    + by apply read_entry_inr in Hreade as [? _].
Qed.

Lemma good_entry_fields xy : ¬ bad_entry xy → (2 ≤ length (Split xy ","))%nat.
Proof.
  intros Hxy. destruct (decide (2 ≤ length (Split xy ","))%nat); [done|].
  exfalso. apply Hxy. left. lia.
Qed.

Lemma flag_entries_first_bad good xy rest r ls :
  Forall (λ e, ¬ bad_entry e) good →
  flag_entry xy = (r, ls) → (∀ c, r ≠ Ok c) →
  flag_entries (good ++ xy :: rest)
  = (match r with Ok _ => Ok [] | Exit code => Exit code | Panic msg => Panic msg end, ls).
Proof.
  intros Hgood Hxy Hr. induction Hgood as [|e good He _ IH]; simpl.
  - rewrite Hxy. destruct r as [c|code|msg]; [by destruct (Hr c)|done..].
  - rewrite (flag_entry_read "" e) by by apply good_entry_fields.
    destruct (read_entry "" e) as [c|l] eqn:Hreade.
    + rewrite IH. destruct r as [c'|code|msg]; [by destruct (Hr c')|done..].
    + by apply read_entry_inr in Hreade as [? _].
Qed.

(** X12. The cobra version stops at the first entry it rejects: whatever
    follows that entry in the pattern, [gol] exits with status 1 having
    printed one line, the line for that entry, and neither header nor plot. *)
Theorem first_rejected_entry_reported (d ticks : Z) (pattern : string) (s : State)
    (good rest : list string) (xy : string) :
  Split pattern ";" = good ++ xy :: rest →
  Forall (λ e, ¬ bad_entry e) good → bad_entry xy →
  ∃ s' l, Cobra.gol d pattern ticks s = (Exit 1, s')
          ∧ stdout s' = stdout s ++ [l]
          ∧ read_entry pattern xy = inr l ∧ reports pattern xy l.
Proof.
  intros Hsplit Hgood Hbad.
  destruct (bad_entry_read pattern xy Hbad) as [l Hl].
  destruct (read_entries_first_bad pattern good xy rest l Hgood Hl) as (cs & Hread & _).
  pose (s0 := set_heap (heap s ++ [∅]) s).
  assert (heap s0 !! length (heap s) = Some ∅) as H0 by apply heap_fresh.
  exists (emit [l] (put (length (heap s)) (world_of cs) s0)), l.
  split; [|split; [done|split; [done|by apply read_entry_inr in Hl as [_ ?]]]].
  unfold Cobra.gol. subst s0.
  bind_step ltac:(reflexivity).
  erewrite bind_exit; [done|].
  by rewrite (readPattern_run pattern _ _ ∅ H0), Hsplit, Hread.
Qed.

Lemma first_rejected_entry_reported_witness :
  ∃ s' l, Cobra.gol 50 "1,2;x,3;oops" 10 (boot []) = (Exit 1, s')
          ∧ stdout s' = stdout (boot []) ++ [l]
          ∧ read_entry "1,2;x,3;oops" "x,3" = inr l ∧ reports "1,2;x,3;oops" "x,3" l.
Proof.
  apply (first_rejected_entry_reported 50 10 "1,2;x,3;oops" (boot [])
           ["1,2"] ["oops"] "x,3").
  - reflexivity.
  - constructor; [|constructor].
    apply (read_entry_inl "" "1,2" (mkCoord 1 2)). reflexivity.
  - right. exists "x", (mkNumError "Atoi" "x"). split; [by left|reflexivity].
Defined.

(** X13. On an entry with a single field that is an integer the two
    versions part: the cobra version prints its pattern error and exits with
    status 1, the flag version indexes the missing second field and panics,
    having printed nothing. *)
Theorem single_field_exit_or_panic (d ticks size : Z) (pattern : string) (s : State)
    (good rest : list string) (xy t : string) (v : Z) :
  Split pattern ";" = good ++ xy :: rest →
  Forall (λ e, ¬ bad_entry e) good →
  Split xy "," = [t] → Atoi t = inl v →
  (∃ s', Cobra.gol d pattern ticks s = (Exit 1, s')
         ∧ stdout s' = stdout s ++ [Text ("pattern error: " +:+ pattern +:+ " : " +:+ xy)])
  ∧ (∃ s', Staged.main ticks size pattern s = (Panic "index out of range", s')
           ∧ stdout s' = stdout s).
Proof.
  intros Hsplit Hgood Hxy Ht. split.
  - assert (read_entry pattern xy
            = inr (Text ("pattern error: " +:+ pattern +:+ " : " +:+ xy))) as Hl
      by (unfold read_entry; by rewrite Hxy).
    destruct (read_entries_first_bad pattern good xy rest _ Hgood Hl) as (cs & Hread & _).
    pose (s0 := set_heap (heap s ++ [∅]) s).
    assert (heap s0 !! length (heap s) = Some ∅) as H0 by apply heap_fresh.
    exists (emit [Text ("pattern error: " +:+ pattern +:+ " : " +:+ xy)]
              (put (length (heap s)) (world_of cs) s0)).
    split; [|done]. unfold Cobra.gol. subst s0.
    bind_step ltac:(reflexivity).
    erewrite bind_exit; [done|].
    by rewrite (readPattern_run pattern _ _ ∅ H0), Hsplit, Hread.
  - exists s. split; [|done]. unfold Staged.main.
    erewrite bind_panic; [done|].
    rewrite handleCommandLine_run, Hsplit.
    rewrite (flag_entries_first_bad good xy rest (Panic "index out of range") []);
      [done|done| |done].
    unfold flag_entry. by rewrite Hxy, Ht.
Qed.

Lemma single_field_exit_or_panic_witness :
  (∃ s', Cobra.gol 50 "1,2;5" 10 (boot []) = (Exit 1, s')
         ∧ stdout s' = stdout (boot [])
                        ++ [Text ("pattern error: " +:+ "1,2;5" +:+ " : " +:+ "5")])
  ∧ (∃ s', Staged.main 10 50 "1,2;5" (boot []) = (Panic "index out of range", s')
           ∧ stdout s' = stdout (boot [])).
Proof.
  apply (single_field_exit_or_panic 50 10 50 "1,2;5" (boot []) ["1,2"] [] "5" "5" 5).
  - reflexivity.
  - constructor; [|constructor].
    apply (read_entry_inl "" "1,2" (mkCoord 1 2)). reflexivity.
  - reflexivity.
  - reflexivity.
Defined.

Lemma read_entry_fields pattern xy c :
  read_entry pattern xy = inl c →
  ∃ c0 c1 more, Split xy "," = c0 :: c1 :: more
                ∧ Atoi c0 = inl (x c) ∧ Atoi c1 = inl (y c).
Proof.
  unfold read_entry. destruct (Split xy ",") as [|c0 [|c1 more]]; [done..|].
  destruct (Atoi c0) as [x0|] eqn:H0; [|done].
  destruct (Atoi c1) as [y0|] eqn:H1; [|done].
  intros [= <-]. by exists c0, c1, more.
Qed.

Lemma fold_live_lookup (cs : list Coord) (w : World) c :
  foldl (λ w' c', <[c' := live]> w') w cs !! c
  = if decide (c ∈ cs) then Some live else w !! c.
Proof. exact (foldl_insert_lookup (λ _, Some live) cs w c). Qed.

(** X14. A pattern every entry of which starts with two integer fields is
    read alike by both versions.  [handleCommandLine] returns the ticks and
    the size it was given and one coordinate for each entry, in order, made
    of the entry's first two fields, and prints nothing; [readPattern] puts
    exactly these coordinates into its table, each as a live cell with
    counter 0, and leaves the other entries of the table as they were. *)
Theorem accepted_pattern_read_alike (ticks size : Z) (pattern : string) (world : ref)
    (s : State) (w : World) :
  heap s !! world = Some w →
  Forall (λ xy, ¬ bad_entry xy) (Split pattern ";") →
  ∃ cs,
    Staged.handleCommandLine ticks size pattern s = (Ok (ticks, size, cs), s)
    ∧ Forall2 (λ xy c, ∃ c0 c1 more, Split xy "," = c0 :: c1 :: more
                        ∧ Atoi c0 = inl (x c) ∧ Atoi c1 = inl (y c))
              (Split pattern ";") cs
    ∧ ∃ s' w', Cobra.readPattern pattern world s = (Ok tt, s')
               ∧ heap s' !! world = Some w' ∧ stdout s' = stdout s
               ∧ ∀ c, w' !! c = if decide (c ∈ cs) then Some (mkCell true 0) else w !! c.
Proof.
  intros Hworld Hgood.
  destruct (read_entries_good pattern _ Hgood) as (cs & Hread & Hcs).
  exists cs. split; [|split].
  - rewrite handleCommandLine_run, (flag_entries_read pattern), Hread; [done|].
    eapply Forall_impl; [exact Hgood|]. intros xy. apply good_entry_fields.
  - eapply Forall2_impl; [exact Hcs|]. intros xy c. apply read_entry_fields.
  - exists (put world (foldl (λ w' c, <[c := live]> w') w cs) s),
      (foldl (λ w' c, <[c := live]> w') w cs).
    split; [by rewrite (readPattern_run pattern _ _ w Hworld), Hread|].
    split; [by eapply heap_put_Some|]. split; [done|].
    intros c. apply fold_live_lookup.
Qed.

Lemma accepted_pattern_read_alike_witness :
  ∃ cs,
    Staged.handleCommandLine 10 50 "1,0;0,1,9;1,0" (boot [blinker])
    = (Ok (10, 50, cs), boot [blinker])
    ∧ Forall2 (λ xy c, ∃ c0 c1 more, Split xy "," = c0 :: c1 :: more
                        ∧ Atoi c0 = inl (x c) ∧ Atoi c1 = inl (y c))
              (Split "1,0;0,1,9;1,0" ";") cs
    ∧ ∃ s' w', Cobra.readPattern "1,0;0,1,9;1,0" 0%nat (boot [blinker]) = (Ok tt, s')
               ∧ heap s' !! 0%nat = Some w' ∧ stdout s' = stdout (boot [blinker])
               ∧ ∀ c, w' !! c
                      = if decide (c ∈ cs) then Some (mkCell true 0) else blinker !! c.
Proof.
  apply (accepted_pattern_read_alike 10 50 "1,0;0,1,9;1,0" 0%nat (boot [blinker]) blinker).
  - reflexivity.
  - repeat constructor.
    + apply (read_entry_inl "" "1,0" (mkCoord 1 0)). reflexivity.
    + apply (read_entry_inl "" "0,1,9" (mkCoord 0 1)). reflexivity.
    + apply (read_entry_inl "" "1,0" (mkCoord 1 0)). reflexivity.
Defined.

(** *** Which patterns are accepted *)

Lemma flag_entry_ok pattern entry c ls :
  flag_entry entry = (Ok c, ls) → read_entry pattern entry = inl c.
Proof.
  unfold flag_entry, read_entry.
  destruct (Split entry ",") as [|c0 [|c1 more]]; [done| |].
  - by destruct (Atoi c0).
  - simpl. destruct (Atoi c0); [|done]. destruct (Atoi c1); [|done]. by intros [= <- <-].
Qed.

Lemma flag_entries_ok entries cs ls :
  flag_entries entries = (Ok cs, ls) → Forall (λ e, ¬ bad_entry e) entries.
Proof.
  revert cs ls. induction entries as [|e rest IH]; intros cs ls; [by constructor|].
  cbn [flag_entries].
  destruct (flag_entry e) as [[c|code|msg] ls'] eqn:He; [|done..].
  destruct (flag_entries rest) as [[cs'|code|msg] ls''] eqn:Hrest; [|done..].
  intros _. constructor; [|by eapply IH].
  eapply read_entry_inl. by apply (flag_entry_ok "") in He.
Qed.

Lemma flag_entry_outcome (entry : string) r ls :
  flag_entry entry = (r, ls) →
  match r with
  | Ok _ => ls = []
  | Exit code => code = 1 ∧ length ls = 1%nat
  | Panic msg => msg = "index out of range"%string ∧ ls = []
  end.
Proof.
  unfold flag_entry. destruct (Split entry ",") as [|c0 [|c1 more]]; simpl.
  - by intros [= <- <-].
  - destruct (Atoi c0); by intros [= <- <-].
  - destruct (Atoi c0); [|by intros [= <- <-]].
    destruct (Atoi c1); by intros [= <- <-].
Qed.

Lemma flag_entries_outcome (entries : list string) r ls :
  flag_entries entries = (r, ls) →
  match r with
  | Ok _ => ls = []
  | Exit code => code = 1 ∧ length ls = 1%nat
  | Panic msg => msg = "index out of range"%string ∧ ls = []
  end.
Proof.
  revert r ls. induction entries as [|e rest IH]; intros r ls; cbn [flag_entries].
  - by intros [= <- <-].
  - pose proof (flag_entry_outcome e) as He.
    destruct (flag_entry e) as [[c|code|msg] ls0].
    + specialize (IH (flag_entries rest).1 (flag_entries rest).2).
      destruct (flag_entries rest) as [[cs|code|msg] ls1]; simpl in IH;
        intros [= <- <-]; by apply IH.
    + intros [= <- <-]. by apply (He (Exit code) ls0).
    + intros [= <- <-]. by apply (He (Panic msg) ls0).
Qed.

Lemma entries_good_or_bad (entries : list string) :
  Forall (λ e, ¬ bad_entry e) entries ∨ Exists bad_entry entries.
Proof.
  induction entries as [|e rest [IH|IH]].
  - left. constructor.
  - destruct (read_entry "" e) as [c|l] eqn:He.
    + left. constructor; [by eapply read_entry_inl|done].
    + right. apply Exists_cons. left. by apply read_entry_inr in He as [? _].
  - right. apply Exists_cons. by right.
Qed.

Lemma Staged_main_rejects ticks size pattern s :
  Exists bad_entry (Split pattern ";") →
  ∃ r s' ls, Staged.main ticks size pattern s = (r, s')
             ∧ (r = Exit 1 ∨ r = Panic "index out of range")
             ∧ stdout s' = stdout s ++ ls ∧ (length ls ≤ 1)%nat.
Proof.
  intros Hbad. unfold Staged.main.
  destruct (flag_entries (Split pattern ";")) as [[cs|code|msg] ls] eqn:Hflag.
  - apply flag_entries_ok in Hflag.
    apply Exists_exists in Hbad as (xy & Hin & Hxy).
    by destruct (proj1 (Forall_forall _ _) Hflag xy Hin).
  - destruct (flag_entries_outcome _ _ _ Hflag) as [-> Hlen].
    exists (Exit 1), (emit ls s), ls. split; [|split; [by left|split; [done|lia]]].
    erewrite bind_exit; [done|]. by rewrite handleCommandLine_run, Hflag.
  - destruct (flag_entries_outcome _ _ _ Hflag) as [-> ->].
    exists (Panic "index out of range"), s, []. split; [|split; [by right|]].
    + erewrite bind_panic; [done|]. by rewrite handleCommandLine_run, Hflag.
    + split; [by rewrite app_nil_r|simpl; lia].
Qed.

(** X15. Both versions run to the end exactly on the patterns every entry of
    which starts with two integer fields: on any other pattern the cobra
    version exits with status 1 after one line of output, and the flag
    version exits with status 1 or panics after at most one line, so that
    neither prints a header or a plot. *)
Theorem runs_iff_every_entry_good (d ticks size : Z) (pattern : string) (s : State) :
  fair s →
  ((∃ s', Cobra.gol d pattern ticks s = (Ok tt, s'))
   ↔ Forall (λ xy, ¬ bad_entry xy) (Split pattern ";"))
  ∧ ((∃ s', Staged.main ticks size pattern s = (Ok tt, s'))
     ↔ Forall (λ xy, ¬ bad_entry xy) (Split pattern ";"))
  ∧ (¬ Forall (λ xy, ¬ bad_entry xy) (Split pattern ";") →
     (∃ s' l, Cobra.gol d pattern ticks s = (Exit 1, s') ∧ stdout s' = stdout s ++ [l])
     ∧ ∃ r s' ls, Staged.main ticks size pattern s = (r, s')
                  ∧ (r = Exit 1 ∨ r = Panic "index out of range")
                  ∧ stdout s' = stdout s ++ ls ∧ (length ls ≤ 1)%nat).
Proof.
  intros Hfair. split; [|split].
  - split.
    + intros [s' Hrun]. destruct (entries_good_or_bad (Split pattern ";")) as [?|Hbad]; [done|].
      destruct (Cobra_gol_exit d pattern ticks s Hbad) as (s'' & _ & _ & Hexit & _).
      congruence.
    + intros Hgood.
      destruct (Cobra_gol_run d pattern ticks s Hfair Hgood) as (s' & _ & Hrun & _).
      by exists s'.
  - split.
    + intros [s' Hrun]. destruct (entries_good_or_bad (Split pattern ";")) as [?|Hbad]; [done|].
      destruct (Staged_main_rejects ticks size pattern s Hbad)
        as (r & s'' & ls & Hrej & [->| ->] & _); congruence.
    + intros Hgood.
      destruct (Staged_main_run ticks size pattern s Hfair Hgood) as (s' & _ & Hrun & _).
      by exists s'.
  - intros Hnot. destruct (entries_good_or_bad (Split pattern ";")) as [?|Hbad]; [done|].
    split; [|by apply Staged_main_rejects].
    destruct (Cobra_gol_exit d pattern ticks s Hbad) as (s' & _ & l & Hexit & Hout & _).
    by exists s', l.
Qed.

Lemma runs_iff_every_entry_good_witness :
  ((∃ s', Cobra.gol 50 "1,0;0,1" 2 (boot []) = (Ok tt, s'))
   ↔ Forall (λ xy, ¬ bad_entry xy) (Split "1,0;0,1" ";"))
  ∧ ((∃ s', Staged.main 2 50 "1,0;0,1" (boot []) = (Ok tt, s'))
     ↔ Forall (λ xy, ¬ bad_entry xy) (Split "1,0;0,1" ";"))
  ∧ (¬ Forall (λ xy, ¬ bad_entry xy) (Split "1,0;0,1" ";") →
     (∃ s' l, Cobra.gol 50 "1,0;0,1" 2 (boot []) = (Exit 1, s')
              ∧ stdout s' = stdout (boot []) ++ [l])
     ∧ ∃ r s' ls, Staged.main 2 50 "1,0;0,1" (boot []) = (r, s')
                  ∧ (r = Exit 1 ∨ r = Panic "index out of range")
                  ∧ stdout s' = stdout (boot []) ++ ls ∧ (length ls ≤ 1)%nat).
Proof.
  apply (runs_iff_every_entry_good 50 2 50 "1,0;0,1" (boot [])).
  intros k w. reflexivity.
Defined.

(** *** The empty entry *)

Lemma Split_cons s sep : ∃ f fs, Split s sep = f :: fs.
Proof.
  induction s as [|a s IH]; simpl; [by eexists _, _|].
  destruct (Ascii.eqb a sep); [by eexists _, _|].
  destruct IH as (f & fs & ->). by eexists _, _.
Qed.

Lemma Split_snoc s sep :
  Split (s +:+ String sep EmptyString) sep = Split s sep ++ [EmptyString].
Proof.
  induction s as [|a s IH]; simpl.
  - by rewrite Ascii.eqb_refl.
  - rewrite IH. destruct (Ascii.eqb a sep); [done|].
    by destruct (Split_cons s sep) as (f & fs & ->).
Qed.

Lemma empty_entry_bad : bad_entry EmptyString.
Proof. left. simpl. lia. Qed.


(** X16. The empty pattern, and every pattern that ends in a semicolon, has
    an empty entry and is turned down by both versions: the cobra version
    exits with status 1, the flag version exits with status 1 or panics, and
    neither prints a header or a plot. *)
Theorem trailing_semicolon_rejected (d ticks size : Z) (pattern p : string) (s : State) :
  pattern = EmptyString ∨ pattern = p +:+ ";" →
  (∃ s' l, Cobra.gol d pattern ticks s = (Exit 1, s') ∧ stdout s' = stdout s ++ [l])
  ∧ ∃ r s' ls, Staged.main ticks size pattern s = (r, s')
               ∧ (r = Exit 1 ∨ r = Panic "index out of range")
               ∧ stdout s' = stdout s ++ ls ∧ (length ls ≤ 1)%nat.
Proof.
  intros Hp.
  assert (Exists bad_entry (Split pattern ";")) as Hbad.
  { destruct Hp as [-> | ->].
    - apply Exists_cons. left. apply empty_entry_bad.
    - rewrite Split_snoc. apply Exists_app. right.
      apply Exists_cons. left. apply empty_entry_bad. }
  split; [|by apply Staged_main_rejects].
  destruct (Cobra_gol_exit d pattern ticks s Hbad) as (s' & _ & l & Hexit & Hout & _).
  by exists s', l.
Qed.

Lemma trailing_semicolon_rejected_witness :
  (∃ s' l, Cobra.gol 50 ("1,0;0,1" +:+ ";") 2 (boot []) = (Exit 1, s')
           ∧ stdout s' = stdout (boot []) ++ [l])
  ∧ ∃ r s' ls, Staged.main 2 50 ("1,0;0,1" +:+ ";") (boot []) = (r, s')
               ∧ (r = Exit 1 ∨ r = Panic "index out of range")
               ∧ stdout s' = stdout (boot []) ++ ls ∧ (length ls ≤ 1)%nat.
Proof.
  apply (trailing_semicolon_rejected 50 2 50 ("1,0;0,1" +:+ ";") "1,0;0,1" (boot [])).
  right. reflexivity.
Defined.

(** ** No ticks *)

(** X17. With a number of ticks that is zero or negative the loop of
    [main] is not entered: the flag version prints its header and nothing
    else, not even the pattern it was given; the cobra version prints its
    header and one plot block, the one of the pattern. *)
Theorem no_ticks_no_generation (d ticks size : Z) (pattern : string) (s : State) :
  fair s → Forall (λ xy, ¬ bad_entry xy) (Split pattern ";") → ticks ≤ 0 →
  (∃ s', Staged.main ticks size pattern s = (Ok tt, s')
         ∧ stdout s' = stdout s ++ header_lines size)
  ∧ (∃ s' cs ks, Cobra.gol d pattern ticks s = (Ok tt, s')
       ∧ Forall2 (λ xy c, read_entry pattern xy = inl c) (Split pattern ";") cs
       ∧ lists ks (world_of cs)
       ∧ stdout s' = stdout s ++ header_lines d
                              ++ plot_block "plot '-' with points ls 1" ks).
Proof.
  intros Hfair Hgood Hticks.
  assert (Z.to_nat ticks = 0%nat) as Hk by lia. split.
  - destruct (Staged_main_run ticks size pattern s Hfair Hgood)
      as (s' & cs & Hrun & _ & blocks & Hout & Hlen & _).
    exists s'. split; [done|]. rewrite Hk in Hlen.
    apply nil_length_inv in Hlen as ->. by rewrite Hout, app_nil_r.
  - destruct (Cobra_gol_run d pattern ticks s Hfair Hgood)
      as (s' & cs & Hrun & Hcs & blocks & Hout & Hlen & Hplots).
    rewrite Hk in Hlen. destruct blocks as [|b [|b' blocks]]; [done| |done].
    apply Forall2_cons_1 in Hplots as [(ks & Hks & ->) _].
    exists s', cs, ks. split; [done|]. split; [done|]. split; [done|].
    rewrite Hout. simpl. by rewrite app_nil_r, <- app_assoc.
Qed.

Lemma no_ticks_no_generation_witness :
  (∃ s', Staged.main 0 50 "1,0;0,1" (boot []) = (Ok tt, s')
         ∧ stdout s' = stdout (boot []) ++ header_lines 50)
  ∧ (∃ s' cs ks, Cobra.gol 50 "1,0;0,1" 0 (boot []) = (Ok tt, s')
       ∧ Forall2 (λ xy c, read_entry "1,0;0,1" xy = inl c) (Split "1,0;0,1" ";") cs
       ∧ lists ks (world_of cs)
       ∧ stdout s' = stdout (boot []) ++ header_lines 50
                              ++ plot_block "plot '-' with points ls 1" ks).
Proof.
  apply (no_ticks_no_generation 50 0 50 "1,0;0,1" (boot [])).
  - intros k w. reflexivity.
  - repeat constructor.
    + apply (read_entry_inl "" "1,0" (mkCoord 1 0)). reflexivity.
    + apply (read_entry_inl "" "0,1" (mkCoord 0 1)). reflexivity.
  - lia.
Defined.

(** ** The random pattern *)

Lemma kept_app draws k l1 l2 :
  kept draws k (l1 ++ l2) = kept draws k l1 ++ kept draws (k + length l1) l2.
Proof.
  revert k. induction l1 as [|c l1 IH]; intros k; simpl.
  - by rewrite Nat.add_0_r.
  - rewrite IH, <- app_assoc. do 3 f_equal. lia.
Qed.

Lemma kept_sublist draws k cells : kept draws k cells `sublist_of` cells.
Proof.
  revert k. induction cells as [|c cells IH]; intros k; simpl; [constructor|].
  destruct (draws k <? 20); simpl; [by apply sublist_skip|by apply sublist_cons].
Qed.

Lemma elem_of_kept draws k cells c :
  c ∈ kept draws k cells ↔ ∃ m, cells !! m = Some c ∧ draws (k + m)%nat < 20.
Proof.
  revert k. induction cells as [|c0 cells IH]; intros k; simpl.
  - split; [by intros ?%elem_of_nil|by intros (m & ? & _)].
  - rewrite elem_of_app, IH. split.
    + intros [Hc|(m & Hm & Hlow)].
      * destruct (draws k <? 20) eqn:Hk; [|by apply elem_of_nil in Hc].
        apply list_elem_of_singleton in Hc as ->. exists 0%nat.
        split; [done|]. rewrite Nat.add_0_r. by apply Z.ltb_lt.
      * exists (S m). split; [done|]. by replace (k + S m)%nat with (S k + m)%nat by lia.
    + intros ([|m] & Hm & Hlow).
      * left. injection Hm as ->. rewrite Nat.add_0_r in Hlow.
        apply Z.ltb_lt in Hlow. rewrite Hlow. by apply list_elem_of_singleton.
      * right. exists m. split; [done|].
        by replace (S k + m)%nat with (k + S m)%nat by lia.
Qed.

Lemma random_inner_run draws size i (js : list Z) pattern k :
  foldl (λ st j,
      let '(pattern, k) := st in
      (if draws k <? 20
       then pattern ++ [mkCoord (int_sub i (size `quot` 2)) (int_sub j (size `quot` 2))]
       else pattern,
       S k)) (pattern, k) js
  = (pattern ++ kept draws k
       ((λ j, mkCoord (int_sub i (size `quot` 2)) (int_sub j (size `quot` 2))) <$> js),
     (k + length js)%nat).
Proof.
  revert pattern k. induction js as [|j js IH]; intros pattern k; simpl.
  - by rewrite app_nil_r, Nat.add_0_r.
  - rewrite IH. f_equal; [|lia].
    destruct (draws k <? 20); simpl; by rewrite <- ?app_assoc.
Qed.

Lemma random_outer_run draws size (rows : list Z) pattern k :
  foldl (λ st i,
      foldl (λ st j,
        let '(pattern, k) := st in
        (if draws k <? 20
         then pattern ++ [mkCoord (int_sub i (size `quot` 2)) (int_sub j (size `quot` 2))]
         else pattern,
         S k))
      st (upto 0 size)) (pattern, k) rows
  = (pattern ++ kept draws k (rows ≫= random_row size),
     (k + length (rows ≫= random_row size))%nat).
Proof.
  revert pattern k. induction rows as [|i rows IH]; intros pattern k; simpl.
  - by rewrite app_nil_r, Nat.add_0_r.
  - rewrite random_inner_run, IH. fold (random_row size i).
    change (list_bind Z Coord (random_row size) rows) with (rows ≫= random_row size).
    assert (length (random_row size i) = length (upto 0 size)) as Hlen
      by apply length_fmap.
    rewrite kept_app, length_app, Hlen, <- app_assoc. f_equal. lia.
Qed.

(** The loops keep the cells the draws choose. *)
Lemma handleCommandLine_random_kept draws size :
  handleCommandLine_random draws size = kept draws 0 (random_grid size).
Proof. unfold handleCommandLine_random. by rewrite random_outer_run. Qed.

Lemma int_sub_small size i :
  is_int size → 0 ≤ i < size → int_sub i (size `quot` 2) = i - size `quot` 2.
Proof.
  intros Hsize Hi. apply int_wrap_id.
  unfold is_int, int_min, int_max in *.
  assert (0 ≤ size `quot` 2 ≤ size) by (split; [apply Z.quot_pos|apply Z.quot_le_upper_bound]; lia).
  lia.
Qed.

Lemma elem_of_random_grid size c :
  is_int size →
  c ∈ random_grid size
  ↔ ∃ i j, 0 ≤ i < size ∧ 0 ≤ j < size ∧ c = mkCoord (i - size `quot` 2) (j - size `quot` 2).
Proof.
  intros Hsize. unfold random_grid, random_row, upto.
  rewrite list_elem_of_bind. split.
  - intros (i & (j & -> & Hj)%list_elem_of_fmap & Hi).
    apply elem_of_seqZ in Hi, Hj. exists i, j.
    split; [lia|]. split; [lia|]. by rewrite !int_sub_small by (done || lia).
  - intros (i & j & Hi & Hj & ->). exists i. split; [|apply elem_of_seqZ; lia].
    apply list_elem_of_fmap. exists j. split; [|apply elem_of_seqZ; lia].
    by rewrite !int_sub_small by (done || lia).
Qed.

Lemma NoDup_random_grid size : is_int size → NoDup (random_grid size).
Proof.
  intros Hsize. unfold random_grid. apply NoDup_bind.
  - intros i i' c Hi Hi' Hc Hc'. unfold upto in Hi, Hi'. apply elem_of_seqZ in Hi, Hi'.
    unfold random_row, upto in Hc, Hc'.
    apply list_elem_of_fmap in Hc as (j & -> & Hj), Hc' as (j' & Heq & Hj').
    apply elem_of_seqZ in Hj, Hj'.
    rewrite !int_sub_small in Heq by (done || lia). injection Heq. lia.
  - intros i Hi. unfold upto in Hi. apply elem_of_seqZ in Hi.
    unfold random_row. apply NoDup_fmap_2_strong; [|apply NoDup_seqZ].
    intros j j' Hj Hj' Heq. unfold upto in Hj, Hj'. apply elem_of_seqZ in Hj, Hj'.
    rewrite !int_sub_small in Heq by (done || lia). injection Heq. lia.
  - apply NoDup_seqZ.
Qed.

Lemma lookup_rows {A B} (f : A → B → Coord) (js : list B) (l : list A) a b i j :
  l !! a = Some i → js !! b = Some j →
  (l ≫= λ i, f i <$> js) !! (a * length js + b)%nat = Some (f i j).
Proof.
  revert a. induction l as [|i0 l IH]; intros a Ha Hb; [done|].
  simpl. destruct a as [|a]; simpl in *.
  - injection Ha as ->. rewrite lookup_app_l.
    + by rewrite list_lookup_fmap, Hb.
    + rewrite length_fmap. by eapply lookup_lt_Some.
  - rewrite lookup_app_r by (rewrite length_fmap; lia).
    rewrite length_fmap.
    replace (length js + a * length js + b - length js)%nat with (a * length js + b)%nat by lia.
    by apply IH.
Qed.

Lemma lookup_random_grid size i j :
  is_int size → 0 ≤ i < size → 0 ≤ j < size →
  random_grid size !! Z.to_nat (i * size + j)
  = Some (mkCoord (i - size `quot` 2) (j - size `quot` 2)).
Proof.
  intros Hsize Hi Hj.
  rewrite <- (int_sub_small size i), <- (int_sub_small size j) by done.
  replace (Z.to_nat (i * size + j))
    with (Z.to_nat i * length (upto 0 size) + Z.to_nat j)%nat
    by (unfold upto; rewrite length_seqZ; lia).
  unfold random_grid, random_row.
  apply (lookup_rows (λ i j, mkCoord (int_sub i (size `quot` 2)) (int_sub j (size `quot` 2)))
           (upto 0 size) (upto 0 size)).
  - unfold upto. rewrite lookup_seqZ. split; [f_equal|]; lia.
  - unfold upto. rewrite lookup_seqZ. split; [f_equal|]; lia.
Qed.

(** X18. The random starting pattern.  For every outcome of the draws, the
    pattern [handleCommandLine] builds under [-random] has no coordinate
    twice, lies inside the window that [gnuplotHeader size] sets, and holds
    the cell of row [i] and column [j] of the square exactly when draw number
    [i * size + j] was below 20; a size of zero or less gives no cell. *)
Theorem random_pattern_from_draws (draws : nat → Z) (size : Z) :
  is_int size →
  NoDup (handleCommandLine_random draws size)
  ∧ (∀ c, c ∈ handleCommandLine_random draws size →
       - (size `quot` 2) ≤ x c ≤ size `quot` 2 ∧ - (size `quot` 2) ≤ y c ≤ size `quot` 2)
  ∧ (∀ i j, 0 ≤ i < size → 0 ≤ j < size →
       mkCoord (i - size `quot` 2) (j - size `quot` 2) ∈ handleCommandLine_random draws size
       ↔ draws (Z.to_nat (i * size + j)) < 20)
  ∧ (size ≤ 0 → handleCommandLine_random draws size = []).
Proof.
  intros Hsize. rewrite handleCommandLine_random_kept.
  pose proof (NoDup_random_grid size Hsize) as Hnd.
  split; [|split; [|split]].
  - exact (sublist_NoDup _ _ Hnd (kept_sublist draws 0 (random_grid size))).
  - intros c Hc.
    assert (c ∈ random_grid size) as Hin
      by (eapply elem_of_sublist; [exact Hc|apply kept_sublist]).
    apply elem_of_random_grid in Hin as (i & j & Hi & Hj & ->); [|done]. simpl.
    assert (size `quot` 2 * 2 ≤ size ∧ size < size `quot` 2 * 2 + 2).
    { pose proof (Z.quot_rem size 2 ltac:(lia)).
      pose proof (Z.rem_bound_pos size 2 ltac:(lia) ltac:(lia)). lia. }
    lia.
  - intros i j Hi Hj. rewrite elem_of_kept. split.
    + intros (m & Hm & Hlow).
      pose proof (lookup_random_grid size i j Hsize Hi Hj) as Hij.
      by rewrite <- (NoDup_lookup _ _ _ _ Hnd Hm Hij).
    + intros Hlow. exists (Z.to_nat (i * size + j)).
      split; [by apply lookup_random_grid|done].
  - intros Hle. unfold random_grid, upto.
    replace (seqZ 0 (size - 0)) with (@nil Z); [done|].
    symmetry. apply seqZ_nil. lia.
Qed.

Lemma random_pattern_from_draws_witness :
  NoDup (handleCommandLine_random every_third 3)
  ∧ (∀ c, c ∈ handleCommandLine_random every_third 3 →
       - (3 `quot` 2) ≤ x c ≤ 3 `quot` 2 ∧ - (3 `quot` 2) ≤ y c ≤ 3 `quot` 2)
  ∧ (∀ i j, 0 ≤ i < 3 → 0 ≤ j < 3 →
       mkCoord (i - 3 `quot` 2) (j - 3 `quot` 2) ∈ handleCommandLine_random every_third 3
       ↔ every_third (Z.to_nat (i * 3 + j)) < 20)
  ∧ (3 ≤ 0 → handleCommandLine_random every_third 3 = []).
Proof.
  apply (random_pattern_from_draws every_third 3).
  unfold is_int, int_min, int_max. lia.
Defined.

(** ** Known patterns, anywhere *)

Lemma coords_near (l : list Coord) :
  Forall (λ c, -100 ≤ x c ≤ 100 ∧ -100 ≤ y c ≤ 100) l → coords (list_to_set l).
Proof.
  intros Hl c Hc. apply elem_of_list_to_set in Hc.
  destruct (proj1 (Forall_forall _ _) Hl c Hc). destruct c. by apply is_coord_near.
Qed.

Lemma coords_block4 : coords block4.
Proof. apply coords_near. repeat constructor; simpl; lia. Qed.

Lemma coords_row : coords row3.
Proof. apply coords_near. repeat constructor; simpl; lia. Qed.

Lemma iter_next_block4 k : Nat.iter k next block4 = block4.
Proof.
  induction k as [|k IH]; [done|]. rewrite Nat.iter_succ, IH. by vm_compute.
Qed.

Lemma iter_next_row3 k : Nat.iter (2 * k) next row3 = row3.
Proof.
  induction k as [|k IH]; [done|].
  replace (2 * S k)%nat with (S (S (2 * k))) by lia.
  rewrite !Nat.iter_succ, IH. by vm_compute.
Qed.

(** X19. Placed anywhere on the grid, the offsets added as the program adds
    them, the two-by-two block is the same after any number of ticks and the
    row of three is the same after any even number of ticks. *)
Theorem block_still_row_returns (s : State) (m1 m2 : ref) (dx dy : Z) (k : nat) :
  fair s →
  heap s !! m1 = Some (live_world (shift dx dy block4)) →
  heap s !! m2 = Some (live_world (shift dx dy row3)) →
  returns (repeatM k Staged.Tick m1) s (λ r s',
    heap s' !! r = Some (live_world (shift dx dy block4)))
  ∧ returns (repeatM (2 * k) Staged.Tick m2) s (λ r s',
      heap s' !! r = Some (live_world (shift dx dy row3))).
Proof.
  intros Hfair Hm1 Hm2. split.
  - destruct (repeat_Tick_run k m1 s _ Hfair Hm1) as (r & s' & Hrun & Hr & _).
    exists r, s'. split; [done|].
    by rewrite Hr, iter_tick_live_world, iter_next_shift, iter_next_block4
      by apply coords_block4.
  - destruct (repeat_Tick_run (2 * k) m2 s _ Hfair Hm2) as (r & s' & Hrun & Hr & _).
    exists r, s'. split; [done|].
    by rewrite Hr, iter_tick_live_world, iter_next_shift, iter_next_row3
      by apply coords_row.
Qed.

Lemma block_still_row_returns_witness :
  returns (repeatM 3 Staged.Tick 0%nat)
    (boot [live_world (shift 7 (-2) block4); live_world (shift 7 (-2) row3)])
    (λ r s', heap s' !! r = Some (live_world (shift 7 (-2) block4)))
  ∧ returns (repeatM (2 * 3) Staged.Tick 1%nat)
      (boot [live_world (shift 7 (-2) block4); live_world (shift 7 (-2) row3)])
      (λ r s', heap s' !! r = Some (live_world (shift 7 (-2) row3))).
Proof.
  apply (block_still_row_returns
           (boot [live_world (shift 7 (-2) block4); live_world (shift 7 (-2) row3)])
           0%nat 1%nat 7 (-2) 3).
  - intros k w. reflexivity.
  - reflexivity.
  - reflexivity.
Defined.
